(** * AppAudio: the audio pipeline of the baby monitor firmware

    A shallow embedding of [app::AppAudio] (AppAudio.hpp): the circular
    audio buffer filled by [detectTask], the feature window it rebuilds,
    the data callback and the label reduction of [actionTask], and the
    crying / not-crying latch that drives the notification callback.

    Conventions.
    - [int] and [size_t] values are integers in [Z]; the places where the
      source reduces or can wrap ([%], the [uint16_t] loop counter, the
      [size_t] product in the data callback) are written out.
    - [float] values are IEEE 754 values, [spec_float] of the standard
      library; [a > b] in the source is [SFltb b a].
    - An array is a [list] read with [!!] and updated in place with
      [<[i:=x]>]; the code does no bounds check, and the lemmas below show
      where the index is in range.
    - The three tasks are modelled one loop iteration at a time; what the
      external collaborators (AFE front end, classifier) hand back in an
      iteration is an input of that iteration. *)

From Stdlib Require Import ZArith Bool Lia SpecFloat.
From stdpp Require Import base tactics option list strings.

Local Open Scope Z_scope.

(** ** Data model *)

(** [float]: the type of samples and of classifier scores. *)
Abbreviation float := spec_float.

Definition AUDIO_BUFFER_SIZE : Z := 16000.
Definition CRYING_IDX : Z := 0.
Definition NOISE_IDX : Z := 1.

(** The data members of [AppAudio] that the three tasks read and write. *)
Record AppAudio : Type := mkAppAudio {
  m_audio_buffer : list float;
  m_features : list float;
  m_audio_buffer_ptr : Z;
  m_crying : bool
}.

Definition set_audio_buffer (obj : AppAudio) (b : list float) : AppAudio :=
  mkAppAudio b (m_features obj) (m_audio_buffer_ptr obj) (m_crying obj).
Definition set_features (obj : AppAudio) (f : list float) : AppAudio :=
  mkAppAudio (m_audio_buffer obj) f (m_audio_buffer_ptr obj) (m_crying obj).
Definition set_audio_buffer_ptr (obj : AppAudio) (p : Z) : AppAudio :=
  mkAppAudio (m_audio_buffer obj) (m_features obj) p (m_crying obj).
Definition set_crying (obj : AppAudio) (c : bool) : AppAudio :=
  mkAppAudio (m_audio_buffer obj) (m_features obj) (m_audio_buffer_ptr obj) c.

(** Calls of the callback [m_crying_fn], oldest first: the argument of each. *)
Definition events : Type := list bool.

(** [init]: [m_crying = false], the two arrays come from [new float[...]]
    and hold whatever the allocator left there ([raw_audio], [raw_features],
    each of [AUDIO_BUFFER_SIZE] elements), the cursor starts at its member
    initialiser [0].  The callback is stored, not called. *)
Definition init (raw_audio raw_features : list float) : AppAudio * events :=
  (mkAppAudio raw_audio raw_features 0 false, []).

(** [for (int i = 0; i < n; ++i) body]: [for_loop] runs [k] iterations from
    counter value [i]. *)
Fixpoint for_loop {St : Type} (k : nat) (i : Z) (body : Z -> St -> St) (s : St) : St :=
  match k with
  | O => s
  | S k' => for_loop k' (i + 1) body (body i s)
  end.

Definition for_int {St : Type} (n : Z) (body : Z -> St -> St) (s : St) : St :=
  for_loop (Z.to_nat n) 0 body s.

(** Reading [a[i]]; the default is only met out of range. *)
Definition read (a : list float) (i : Z) : float :=
  default S754_nan (a !! Z.to_nat i).

(** ** detectTask *)

(** What [fetch] returned: [None] is [nullptr]; [data] is the sample pointer,
    indexed as [res->data[i]] (the value is converted to [float] on store). *)
Record afe_fetch_result_t : Type := mk_fetch {
  ret_value : Z;
  data : Z -> float
}.

(** [ESP_FAIL] of the ESP-IDF header [esp_err.h]. *)
Definition ESP_FAIL : Z := -1.

(** The body of the fill loop: reduce the cursor, store, post-increment. *)
Definition append_one (obj : AppAudio) (x : float) : AppAudio :=
  let p := Z.rem (m_audio_buffer_ptr obj) AUDIO_BUFFER_SIZE in
  set_audio_buffer_ptr
    (set_audio_buffer obj (<[Z.to_nat p := x]> (m_audio_buffer obj)))
    (p + 1).

(** The body of the copy loop, [m_features[i] = m_audio_buffer[(ptr + i) % SIZE]]. *)
Definition copy_one (i : Z) (obj : AppAudio) : AppAudio :=
  set_features obj
    (<[Z.to_nat i :=
        read (m_audio_buffer obj)
             (Z.rem (m_audio_buffer_ptr obj + i) AUDIO_BUFFER_SIZE)]>
       (m_features obj)).

Definition rebuild_features (obj : AppAudio) : AppAudio :=
  for_int AUDIO_BUFFER_SIZE copy_one obj.

(** One pass of the [while (true)] loop of [detectTask]. *)
Definition detectTask_iteration (afe_chunksize : Z)
    (res : option afe_fetch_result_t) (obj : AppAudio) : AppAudio :=
  match res with
  | None => obj
  | Some r =>
      if ret_value r =? ESP_FAIL then obj
      else
        rebuild_features
          (for_int afe_chunksize (fun i o => append_one o (data r i)) obj)
  end.

(** Appending the samples [xs] one at a time. *)
Definition append_all (obj : AppAudio) (xs : list float) : AppAudio :=
  foldl append_one obj xs.

(** The shape every state of the pipeline has: both arrays hold
    [AUDIO_BUFFER_SIZE] elements and the cursor is between [0] and
    [AUDIO_BUFFER_SIZE], both included. *)
Definition well_formed (obj : AppAudio) : Prop :=
  Z.of_nat (length (m_audio_buffer obj)) = AUDIO_BUFFER_SIZE /\
  Z.of_nat (length (m_features obj)) = AUDIO_BUFFER_SIZE /\
  0 <= m_audio_buffer_ptr obj <= AUDIO_BUFFER_SIZE.

(** States reached from [init] by single-sample appends. *)
Inductive reachable : AppAudio -> Prop :=
| reachable_init raw_audio raw_features :
    Z.of_nat (length raw_audio) = AUDIO_BUFFER_SIZE ->
    Z.of_nat (length raw_features) = AUDIO_BUFFER_SIZE ->
    reachable (fst (init raw_audio raw_features))
| reachable_append obj x :
    reachable obj -> reachable (append_one obj x).

(** ** actionTask *)

(** The data callback handed to the classifier,
    [memcpy(out_ptr, obj->m_features + offset, length * sizeof(float)); return 0;].

    [offset] and [length] are [size_t]: unsigned, [size_bits] wide (32 on the
    ESP32), and the byte count [length * sizeof(float)] is computed in that
    type, so it wraps.  [memcpy_floats src offset n] copies [n] bytes from
    element [offset] of the array [src].  A copy of zero bytes reads nothing,
    wherever the source pointer points.  A copy of one byte or more whose
    source range leaves the array reads outside it, and is the [OutOfRange]
    result here.  The destination is the caller's. *)
Inductive copy_result : Type :=
| Copied (out : list float)
| OutOfRange.

Definition sizeof_float : Z := 4.

Definition size_t_mul (size_bits a b : Z) : Z := (a * b) mod 2 ^ size_bits.

Definition memcpy_floats (src : list float) (offset n : Z) : copy_result :=
  if n =? 0 then Copied []
  else if offset * sizeof_float + n <=? Z.of_nat (length src) * sizeof_float
  then Copied (take (Z.to_nat (n / sizeof_float)) (drop (Z.to_nat offset) src))
  else OutOfRange.

Definition get_data_fn (size_bits : Z) (obj : AppAudio) (offset len : Z)
  : copy_result * Z :=
  (memcpy_floats (m_features obj) offset (size_t_mul size_bits len sizeof_float), 0).

(** What [run_classifier] handed back in one iteration: its return value (an
    [EI_IMPULSE_ERROR], [EI_IMPULSE_OK] being [0] in the Edge Impulse SDK) and
    the scores [result.classification[i].value] it left in [result]. *)
Record classifier_outcome : Type := mk_outcome {
  status : Z;
  classification : Z -> float
}.

Definition EI_IMPULSE_OK : Z := 0.

(** The body of the scan, [if (value[i] > value[result_idx]) result_idx = i]. *)
Definition scan_one (cls : Z -> float) (i result_idx : Z) : Z :=
  if SFltb (cls result_idx) (cls i) then i else result_idx.

(** The [switch (result_idx)]: the new object and the callback calls made. *)
Definition action_switch (result_idx : Z) (obj : AppAudio) : AppAudio * events :=
  if result_idx =? CRYING_IDX then
    if negb (m_crying obj) then (set_crying obj true, [true]) else (obj, [])
  else if result_idx =? NOISE_IDX then
    if m_crying obj then (set_crying obj false, [false]) else (obj, [])
  else (obj, []).

(** The switch driven by a sequence of labels, one per iteration. *)
Fixpoint debounce_run (labels : list Z) (obj : AppAudio) : AppAudio * events :=
  match labels with
  | [] => (obj, [])
  | l :: ls =>
      let (obj1, e1) := action_switch l obj in
      let (obj2, e2) := debounce_run ls obj1 in
      (obj2, e1 ++ e2)
  end.

Section Classifier.

(** The number of labels of the model, a constant of the generated model
    header. *)
Variable EI_CLASSIFIER_LABEL_COUNT : Z.

(** The scan over the labels. *)
Definition scan_labels (cls : Z -> float) (result_idx : Z) : Z :=
  for_int EI_CLASSIFIER_LABEL_COUNT (scan_one cls) result_idx.

(** The same loop with its [uint16_t] counter written out: [++i] wraps at
    [65536], and the loop leaves only when [i < EI_CLASSIFIER_LABEL_COUNT]
    fails.  [fuel] bounds the number of tests of the condition. *)
Fixpoint scan_labels_uint16 (fuel : nat) (cls : Z -> float)
    (i result_idx : Z) : option Z :=
  match fuel with
  | O => None
  | S fuel' =>
      if i <? EI_CLASSIFIER_LABEL_COUNT
      then scan_labels_uint16 fuel' cls ((i + 1) mod 65536)
             (scan_one cls i result_idx)
      else Some result_idx
  end.

(** [result_idx] as it stands when the locked block is left. *)
Definition label_reduction (out : classifier_outcome) : Z :=
  let result_idx := NOISE_IDX in
  if status out =? EI_IMPULSE_OK
  then scan_labels (classification out) result_idx
  else result_idx.

(** One pass of the [while (true)] loop of [actionTask]. *)
Definition actionTask_iteration (out : classifier_outcome) (obj : AppAudio)
  : AppAudio * events :=
  action_switch (label_reduction out) obj.

(** Consecutive passes of the loop, one classifier outcome each. *)
Definition actionTask_run (outs : list classifier_outcome) (obj : AppAudio)
  : AppAudio * events :=
  debounce_run (map label_reduction outs) obj.

End Classifier.

(** The values [m_crying] takes: before the first label and after each one. *)
Fixpoint state_trace (labels : list Z) (obj : AppAudio) : list bool :=
  m_crying obj ::
  match labels with
  | [] => []
  | l :: ls => state_trace ls (fst (action_switch l obj))
  end.

(** How often consecutive entries of a trace differ. *)
Fixpoint state_changes (tr : list bool) : nat :=
  match tr with
  | a :: (b :: _) as rest =>
      ((if Bool.eqb a b then 0 else 1) + state_changes rest)%nat
  | _ => 0%nat
  end.

(** The state a label stands for: [CRYING_IDX] for crying, [NOISE_IDX] for
    not crying; the other labels stand for none. *)
Definition label_state (l : Z) : option bool :=
  if l =? CRYING_IDX then Some true
  else if l =? NOISE_IDX then Some false
  else None.

(** ** Order of the scores *)

(** A score that is not a NaN has a place in a lexicographic order of
    triples; [SFcompare] is the comparison of these places. *)
Definition SFrank (x : float) : option (Z * Z * Z) :=
  match x with
  | S754_nan => None
  | S754_infinity true => Some (-2, 0, 0)
  | S754_infinity false => Some (2, 0, 0)
  | S754_zero _ => Some (0, 0, 0)
  | S754_finite true m e => Some (-1, - e, - Z.pos m)
  | S754_finite false m e => Some (1, e, Z.pos m)
  end.

Definition rank_lt (a b : Z * Z * Z) : Prop :=
  let '(a1, a2, a3) := a in
  let '(b1, b2, b3) := b in
  a1 < b1 \/ (a1 = b1 /\ (a2 < b2 \/ (a2 = b2 /\ a3 < b3))).

(** Case analysis for the lemmas on [SFcompare]: the shapes of the two
    values, then the comparisons of exponents and mantissas. *)
Ltac rank_cases x y :=
  destruct x as [[]|[]| |[] ? ?], y as [[]|[]| |[] ? ?]; cbn;
  repeat match goal with
    | |- context [Pos.compare_cont Eq ?a ?b] =>
        change (Pos.compare_cont Eq a b) with (Pos.compare a b);
        destruct (Pos.compare_spec a b)
    | |- context [Z.compare ?a ?b] => destruct (Z.compare_spec a b)
    end; cbn.

Ltac rank_solve :=
  split;
  [ intros Hres; try discriminate Hres;
    eexists _, _; (split; [reflexivity|split; [reflexivity|cbn; lia]])
  | intros (a & b & Ha & Hb & Hlt); try discriminate Ha; try discriminate Hb;
    injection Ha as <-; injection Hb as <-; cbn in Hlt; try reflexivity; lia ].

(** ** Concrete inputs

    Inputs on which the statements below are instantiated. *)

Definition silence : float := S754_zero false.

(** An object straight after [init], the arrays not yet written. *)
Definition fresh : AppAudio :=
  fst (init (replicate (Z.to_nat AUDIO_BUFFER_SIZE) S754_nan)
            (replicate (Z.to_nat AUDIO_BUFFER_SIZE) S754_nan)).

(** Sample number [k] of a ramp: the value [k + 1]. *)
Definition ramp_sample (k : nat) : float := S754_finite false (Pos.of_succ_nat k) 0.

Definition ramp (n : nat) : list float := map ramp_sample (seq 0 n).

(** The score [0.5]. *)
Definition half : float := S754_finite false 1 (-1).

(** The score [0.25]. *)
Definition quarter : float := S754_finite false 1 (-2).

(** Scores of a two-label model, [crying] for label 0 and [noise] for label 1;
    the entries beyond are never scanned. *)
Definition scores (crying noise : float) : Z -> float :=
  fun i => if i =? CRYING_IDX then crying else noise.

(** ** Runs of detectTask, the notification path, feedTask *)

(** The samples a pass of [detectTask] stores: the first [afe_chunksize]
    entries of the frame, none when the fetch failed. *)
Definition frame_samples (afe_chunksize : Z) (r : afe_fetch_result_t) : list float :=
  map (data r) (map Z.of_nat (seq 0 (Z.to_nat afe_chunksize))).

Definition accepted_samples (afe_chunksize : Z)
    (res : option afe_fetch_result_t) : list float :=
  match res with
  | None => []
  | Some r => if ret_value r =? ESP_FAIL then [] else frame_samples afe_chunksize r
  end.

(** Consecutive passes of the loop of [detectTask], one fetch result each. *)
Definition detectTask_run (afe_chunksize : Z)
    (fetched : list (option afe_fetch_result_t)) (obj : AppAudio) : AppAudio :=
  foldl (fun o res => detectTask_iteration afe_chunksize res o) obj fetched.

(** The feature window a rebuild would give. *)
Definition window (obj : AppAudio) : list float :=
  m_features (rebuild_features obj).

(** The feature window is up to date with the buffer. *)
Definition in_sync (obj : AppAudio) : Prop := rebuild_features obj = obj.

(** Calls alternate, the first with argument [b]. *)
Fixpoint alternating (b : bool) (evs : events) : bool :=
  match evs with
  | [] => true
  | e :: es => Bool.eqb e b && alternating (negb b) es
  end.

(** The arguments [AppMqtt::publish] hands to [esp_mqtt_client_publish]:
    topic, data, length [0], QoS [1], retain [0]. *)
Record mqtt_publish_call : Type := mk_publish {
  topic : String.string;
  payload : String.string;
  len : Z;
  qos : Z;
  retain : Z
}.

Definition publish (topic data : String.string) : mqtt_publish_call :=
  mk_publish topic data 0 1 0.

(** The callback [app_main] passes to [AppAudio::init]. *)
Definition crying_callback (crying : bool) : mqtt_publish_call :=
  if crying
  then publish "bedroom/sensor/baby_monitor"%string "1"%string
  else publish "bedroom/sensor/baby_monitor"%string "0"%string.

(** [feedTask]: the element count of [new int16_t[audio_chunksize * feed_channel]]
    (an [int] product) and the byte count
    [audio_chunksize * sizeof(int16_t) * feed_channel] of each read (a [size_t]
    product, the [int] operands converted to [size_t]). *)
Definition sizeof_int16 : Z := 2.

Definition feed_buffer_elements (audio_chunksize feed_channel : Z) : Z :=
  audio_chunksize * feed_channel.

Definition feed_read_bytes (size_bits audio_chunksize feed_channel : Z) : Z :=
  size_t_mul size_bits
    (size_t_mul size_bits (audio_chunksize mod 2 ^ size_bits) sizeof_int16)
    (feed_channel mod 2 ^ size_bits).

(** ** Ring buffer lemmas *)

Lemma for_loop_app {St : Type} (k1 k2 : nat) (i : Z) (body : Z -> St -> St) (s : St) :
  for_loop (k1 + k2) i body s
  = for_loop k2 (i + Z.of_nat k1) body (for_loop k1 i body s).
Proof.
  revert i s. induction k1 as [|k1 IH]; intros i s; simpl.
  - f_equal. lia.
  - rewrite IH. f_equal. lia.
Qed.

Lemma for_loop_fill (d : Z -> float) (k : nat) (i : Z) (obj : AppAudio) :
  for_loop k i (fun i o => append_one o (d i)) obj
  = append_all obj (map d (map (fun j => i + Z.of_nat j) (seq 0 k))).
Proof.
  revert i obj. induction k as [|k IH]; intros i obj; [reflexivity|].
  cbn [for_loop seq map]. rewrite IH. unfold append_all. cbn [foldl].
  replace (i + Z.of_nat 0) with i by lia. f_equal.
  rewrite <- seq_shift, !map_map.
  apply map_ext. intros j. f_equal. lia.
Qed.

Lemma append_one_well_formed obj x :
  well_formed obj -> well_formed (append_one obj x).
Proof.
  unfold well_formed, append_one, AUDIO_BUFFER_SIZE. cbn.
  intros (Hb & Hf & Hp). rewrite length_insert.
  rewrite Z.rem_mod_nonneg by lia.
  pose proof (Z.mod_pos_bound (m_audio_buffer_ptr obj) 16000). lia.
Qed.

Lemma append_all_well_formed xs obj :
  well_formed obj -> well_formed (append_all obj xs).
Proof.
  revert obj. induction xs as [|x xs IH]; intros obj H; [exact H|].
  apply IH, append_one_well_formed, H.
Qed.

Lemma append_all_snoc obj xs x :
  append_all obj (xs ++ [x]) = append_one (append_all obj xs) x.
Proof. unfold append_all. now rewrite foldl_app. Qed.

Lemma reachable_well_formed obj : reachable obj -> well_formed obj.
Proof.
  induction 1 as [ra rf Ha Hf | obj x _ IH].
  - unfold well_formed, AUDIO_BUFFER_SIZE in *. cbn. lia.
  - now apply append_one_well_formed.
Qed.

Lemma reachable_append_all obj xs :
  reachable obj -> reachable (append_all obj xs).
Proof.
  revert obj. induction xs as [|x xs IH]; intros obj H; [exact H|].
  apply IH. now constructor.
Qed.

(** The cursor after the appends: congruent to the number of samples. *)
Lemma append_all_ptr_mod xs obj :
  0 <= m_audio_buffer_ptr obj ->
  m_audio_buffer_ptr (append_all obj xs) mod AUDIO_BUFFER_SIZE
  = (m_audio_buffer_ptr obj + Z.of_nat (length xs)) mod AUDIO_BUFFER_SIZE.
Proof.
  induction xs as [|x xs IH] using rev_ind; intros Hp.
  - cbn. f_equal. lia.
  - rewrite append_all_snoc, length_app. cbn [length].
    unfold append_one at 1. cbn.
    assert (0 <= m_audio_buffer_ptr (append_all obj xs)) as Hq.
    { clear IH. revert obj Hp. induction xs as [|y ys IHy]; intros obj Hp; [exact Hp|].
      apply IHy. unfold append_one, AUDIO_BUFFER_SIZE. cbn.
      pose proof (Z.rem_nonneg (m_audio_buffer_ptr obj) 16000). lia. }
    rewrite Z.rem_mod_nonneg by (unfold AUDIO_BUFFER_SIZE; lia).
    rewrite Zplus_mod_idemp_l, Zplus_mod, (IH Hp), <- Zplus_mod.
    f_equal. lia.
Qed.

(** Where the recent samples sit: sample number [k] of the run is in slot
    [(ptr0 + k) mod SIZE] for as long as fewer than [SIZE] samples follow it. *)
Lemma append_all_slot xs obj (k : nat) :
  well_formed obj ->
  (k < length xs)%nat ->
  Z.of_nat (length xs) - Z.of_nat k <= AUDIO_BUFFER_SIZE ->
  m_audio_buffer (append_all obj xs)
    !! Z.to_nat ((m_audio_buffer_ptr obj + Z.of_nat k) mod AUDIO_BUFFER_SIZE)
  = xs !! k.
Proof.
  intros Hwf. revert k.
  induction xs as [|x xs IH] using rev_ind; intros k Hk Hlast; [cbn in Hk; lia|].
  rewrite length_app in Hk, Hlast. cbn [length] in Hk, Hlast.
  rewrite append_all_snoc.
  pose proof (append_all_well_formed xs obj Hwf) as (Hlen & _ & Hq).
  destruct Hwf as (_ & _ & Hp).
  pose proof (append_all_ptr_mod xs obj (proj1 Hp)) as Hmod.
  unfold append_one. cbn.
  rewrite Z.rem_mod_nonneg by (unfold AUDIO_BUFFER_SIZE; lia).
  rewrite Hmod. unfold AUDIO_BUFFER_SIZE in *.
  destruct (decide (k = length xs)) as [->|Hne].
  - rewrite list_lookup_insert_eq.
    + rewrite lookup_app_r by lia. now rewrite Nat.sub_diag.
    + pose proof (Z.mod_pos_bound (m_audio_buffer_ptr obj + Z.of_nat (length xs)) 16000).
      lia.
  - rewrite list_lookup_insert_ne.
    + rewrite lookup_app_l by lia. apply IH; lia.
    + intros Heq. apply Z2Nat.inj in Heq.
      * revert Heq. Z.div_mod_to_equations. lia.
      * apply Z.mod_pos_bound. lia.
      * apply Z.mod_pos_bound. lia.
Qed.

(** The copy loop after [k] rounds: entries below [k] are set, the rest and
    the other members are as before. *)
Lemma copy_loop_spec (k : nat) obj :
  let obj' := for_loop k 0 copy_one obj in
  m_audio_buffer obj' = m_audio_buffer obj /\
  m_audio_buffer_ptr obj' = m_audio_buffer_ptr obj /\
  m_crying obj' = m_crying obj /\
  length (m_features obj') = length (m_features obj) /\
  forall i : nat,
    m_features obj' !! i =
    if decide (i < k /\ i < length (m_features obj))%nat
    then Some (read (m_audio_buffer obj)
                 (Z.rem (m_audio_buffer_ptr obj + Z.of_nat i) AUDIO_BUFFER_SIZE))
    else m_features obj !! i.
Proof.
  induction k as [|k IH].
  - cbn. split_and!; try reflexivity.
  - replace (S k) with (k + 1)%nat by lia. rewrite for_loop_app. cbn [for_loop].
    cbn zeta in IH. destruct IH as (Hb & Hp & Hc & Hl & Hi).
    set (mid := for_loop k 0 copy_one obj) in *.
    cbn. rewrite length_insert, Hb, Hp, Hc, Hl. split_and!; try reflexivity.
    intros i. rewrite Z.add_0_l, Nat2Z.id.
    destruct (decide (k = i)) as [<-|Hne].
    + destruct (decide (k < length (m_features obj))%nat) as [Hlt|Hge].
      * rewrite list_lookup_insert_eq by lia. rewrite decide_True by lia. reflexivity.
      * rewrite list_insert_ge by lia. rewrite Hi.
        rewrite !decide_False by lia. reflexivity.
    + rewrite list_lookup_insert_ne by exact Hne. rewrite Hi.
      repeat case_decide; try lia; reflexivity.
Qed.

Lemma rebuild_features_spec obj :
  well_formed obj ->
  let obj' := rebuild_features obj in
  m_audio_buffer obj' = m_audio_buffer obj /\
  m_audio_buffer_ptr obj' = m_audio_buffer_ptr obj /\
  m_crying obj' = m_crying obj /\
  Z.of_nat (length (m_features obj')) = AUDIO_BUFFER_SIZE /\
  forall i, 0 <= i < AUDIO_BUFFER_SIZE ->
    m_features obj' !! Z.to_nat i
    = m_audio_buffer obj
        !! Z.to_nat ((m_audio_buffer_ptr obj + i) mod AUDIO_BUFFER_SIZE).
Proof.
  intros (Hb & Hf & Hp). unfold rebuild_features, for_int.
  assert (Z.of_nat (Z.to_nat AUDIO_BUFFER_SIZE) = AUDIO_BUFFER_SIZE) as Hn
    by (apply Z2Nat.id; discriminate).
  assert (0 < AUDIO_BUFFER_SIZE) as Hpos by reflexivity.
  revert Hn. generalize (Z.to_nat AUDIO_BUFFER_SIZE) as n. intros n Hn.
  destruct (copy_loop_spec n obj) as (Eb & Ep & Ec & El & Ei).
  revert Eb Ep Ec El Ei. generalize (for_loop n 0 copy_one obj) as obj'.
  intros obj' Eb Ep Ec El Ei. cbn zeta.
  split_and!; [exact Eb|exact Ep|exact Ec|congruence|].
  intros i Hi. rewrite Ei. rewrite decide_True by lia.
  rewrite Z2Nat.id by lia.
  rewrite Z.rem_mod_nonneg by lia.
  unfold read.
  pose proof (Z.mod_pos_bound (m_audio_buffer_ptr obj + i) AUDIO_BUFFER_SIZE Hpos).
  destruct (m_audio_buffer obj
              !! Z.to_nat ((m_audio_buffer_ptr obj + i) mod AUDIO_BUFFER_SIZE))
    as [v|] eqn:Hv; [reflexivity|].
  apply lookup_ge_None_1 in Hv. lia.
Qed.


(** C2 — After at least [AUDIO_BUFFER_SIZE] single-sample appends (from any
    state of the pipeline, the initial one included) followed by the full
    rebuild, the feature window has exactly [AUDIO_BUFFER_SIZE] entries, they
    are the last [AUDIO_BUFFER_SIZE] appended samples, oldest first, and entry
    [i] is the buffer slot [(w + i) mod AUDIO_BUFFER_SIZE], [w] the cursor. *)
Theorem window_is_last_samples (obj : AppAudio) (xs : list float) :
  well_formed obj ->
  AUDIO_BUFFER_SIZE <= Z.of_nat (length xs) ->
  let st := append_all obj xs in
  let obj' := rebuild_features st in
  Z.of_nat (length (m_features obj')) = AUDIO_BUFFER_SIZE /\
  m_features obj' = drop (length xs - Z.to_nat AUDIO_BUFFER_SIZE) xs /\
  (forall i, 0 <= i < AUDIO_BUFFER_SIZE ->
     m_features obj' !! Z.to_nat i
     = m_audio_buffer st
         !! Z.to_nat ((m_audio_buffer_ptr st + i) mod AUDIO_BUFFER_SIZE)).
Proof.
  intros Hwf HN st obj'.
  pose proof (append_all_well_formed xs obj Hwf) as Hst. fold st in Hst.
  destruct (rebuild_features_spec st Hst) as (_ & _ & _ & Hlen & Hi).
  fold obj' in Hlen, Hi.
  split; [exact Hlen|]. split; [|exact Hi].
  apply list_eq_same_length with (n := Z.to_nat AUDIO_BUFFER_SIZE).
  - rewrite length_drop. lia.
  - lia.
  - intros i x y Hlt Hx Hy.
    rewrite lookup_drop in Hy.
    rewrite <- (Nat2Z.id i), Hi in Hx by lia.
    pose proof Hwf as (Hb & Hf & Hp).
    pose proof (append_all_ptr_mod xs obj (proj1 Hp)) as Hmod. fold st in Hmod.
    replace ((m_audio_buffer_ptr st + Z.of_nat i) mod AUDIO_BUFFER_SIZE)
      with ((m_audio_buffer_ptr obj
             + Z.of_nat (length xs - Z.to_nat AUDIO_BUFFER_SIZE + i))
            mod AUDIO_BUFFER_SIZE) in Hx.
    + unfold st in Hx. rewrite append_all_slot in Hx.
      * congruence.
      * exact Hwf.
      * lia.
      * lia.
    + rewrite (Zplus_mod (m_audio_buffer_ptr st)), Hmod, <- Zplus_mod.
      unfold AUDIO_BUFFER_SIZE in *.
      replace (m_audio_buffer_ptr obj + Z.of_nat (length xs) + Z.of_nat i)
        with (m_audio_buffer_ptr obj
              + Z.of_nat (length xs - Z.to_nat 16000 + i) + 1 * 16000) by lia.
      now rewrite Z_mod_plus_full.
Qed.

Lemma fresh_well_formed : well_formed fresh.
Proof.
  unfold well_formed, fresh. cbn [init fst m_audio_buffer m_features m_audio_buffer_ptr].
  rewrite !length_replicate. split_and!; try reflexivity; discriminate.
Qed.

Lemma fresh_reachable : reachable fresh.
Proof. apply reachable_init; rewrite length_replicate; reflexivity. Qed.

Lemma window_is_last_samples_witness :
  let xs := ramp (Z.to_nat 16005) in
  m_features (rebuild_features (append_all fresh xs)) = drop 5 xs.
Proof.
  intros xs.
  assert (length xs = Z.to_nat 16005) as Hlen
    by (unfold xs, ramp; now rewrite length_map, length_seq).
  destruct (window_is_last_samples fresh xs) as (_ & Hwin & _).
  - exact fresh_well_formed.
  - rewrite Hlen. vm_compute. discriminate.
  - rewrite Hwin, Hlen. reflexivity.
Defined.

(** ** The write cursor *)

Lemma append_all_audio_length xs obj :
  length (m_audio_buffer (append_all obj xs)) = length (m_audio_buffer obj).
Proof.
  revert obj. induction xs as [|x xs IH]; intros obj; [reflexivity|].
  cbn. unfold append_all in IH. rewrite IH. cbn. apply length_insert.
Qed.

Lemma append_all_features xs obj :
  m_features (append_all obj xs) = m_features obj.
Proof.
  revert obj. induction xs as [|x xs IH]; intros obj; [reflexivity|].
  cbn. unfold append_all in IH. now rewrite IH.
Qed.

(** The cursor after a non-empty run of appends. *)
Lemma append_all_ptr xs x obj :
  0 <= m_audio_buffer_ptr obj ->
  m_audio_buffer_ptr (append_all obj (xs ++ [x]))
  = (m_audio_buffer_ptr obj + Z.of_nat (length xs)) mod AUDIO_BUFFER_SIZE + 1.
Proof.
  intros Hp. rewrite append_all_snoc. unfold append_one. cbn.
  pose proof (append_all_ptr_mod xs obj Hp) as Hmod.
  rewrite <- Hmod. f_equal. apply Z.rem_mod_nonneg; [|reflexivity].
  clear Hmod. revert obj Hp.
  induction xs as [|y ys IH]; intros obj Hp; [exact Hp|].
  apply IH. unfold append_one. cbn.
  pose proof (Z.rem_nonneg (m_audio_buffer_ptr obj) AUDIO_BUFFER_SIZE).
  unfold AUDIO_BUFFER_SIZE in *. lia.
Qed.

Lemma reachable_from_init obj :
  reachable obj ->
  exists raw_audio raw_features xs,
    Z.of_nat (length raw_audio) = AUDIO_BUFFER_SIZE /\
    Z.of_nat (length raw_features) = AUDIO_BUFFER_SIZE /\
    obj = append_all (fst (init raw_audio raw_features)) xs.
Proof.
  induction 1 as [ra rf Ha Hf | obj x _ (ra & rf & xs & Ha & Hf & ->)].
  - exists ra, rf, []. auto.
  - exists ra, rf, (xs ++ [x]). rewrite append_all_snoc. auto.
Qed.

(** C8, as the code has it — In every state reached from the initial one by
    single-sample appends the cursor [w] is in [0 .. AUDIO_BUFFER_SIZE], the
    upper end included.  An append stores the sample in slot
    [w mod AUDIO_BUFFER_SIZE] and leaves the cursor at
    [w mod AUDIO_BUFFER_SIZE + 1], which is [w + 1] modulo the size; once the
    buffer has been filled that slot held the oldest of the samples kept. *)
Theorem cursor_range_and_append (obj : AppAudio) :
  reachable obj ->
  let w := m_audio_buffer_ptr obj in
  0 <= w <= AUDIO_BUFFER_SIZE /\
  (forall x,
     let obj' := append_one obj x in
     m_audio_buffer_ptr obj' = w mod AUDIO_BUFFER_SIZE + 1 /\
     m_audio_buffer_ptr obj' mod AUDIO_BUFFER_SIZE = (w + 1) mod AUDIO_BUFFER_SIZE /\
     m_audio_buffer obj'
       = <[Z.to_nat (w mod AUDIO_BUFFER_SIZE) := x]> (m_audio_buffer obj) /\
     m_audio_buffer obj' !! Z.to_nat (w mod AUDIO_BUFFER_SIZE) = Some x /\
     m_features obj' = m_features obj) /\
  (forall raw_audio raw_features xs,
     obj = append_all (fst (init raw_audio raw_features)) xs ->
     AUDIO_BUFFER_SIZE <= Z.of_nat (length xs) ->
     m_audio_buffer obj !! Z.to_nat (w mod AUDIO_BUFFER_SIZE)
     = xs !! (length xs - Z.to_nat AUDIO_BUFFER_SIZE)%nat).
Proof.
  intros Hr w.
  pose proof (reachable_well_formed obj Hr) as Hwf.
  pose proof Hwf as (Hb & Hf & Hp). fold w in Hp.
  assert (0 < AUDIO_BUFFER_SIZE) as Hpos by reflexivity.
  pose proof (Z.mod_pos_bound w AUDIO_BUFFER_SIZE Hpos) as Hm.
  split; [exact Hp|]. split.
  - intros x obj'. unfold obj', append_one. cbn. fold w.
    rewrite Z.rem_mod_nonneg by lia.
    split_and!; try reflexivity.
    + now rewrite Zplus_mod_idemp_l.
    + apply list_lookup_insert_eq. lia.
  - intros ra rf xs Hobj HN.
    assert (well_formed (fst (init ra rf))) as Hwf0.
    { unfold well_formed. cbn.
      rewrite Hobj, append_all_audio_length in Hb.
      rewrite Hobj, append_all_features in Hf.
      cbn in Hb, Hf. lia. }
    pose proof (append_all_ptr_mod xs (fst (init ra rf)) (Z.le_refl 0)) as Hmod.
    rewrite <- Hobj in Hmod. fold w in Hmod. cbn in Hmod.
    rewrite Hmod, Hobj.
    rewrite <- (append_all_slot xs (fst (init ra rf))
                  (length xs - Z.to_nat AUDIO_BUFFER_SIZE)%nat Hwf0) by lia.
    cbn [init fst m_audio_buffer_ptr]. do 2 f_equal.
    replace (Z.of_nat (length xs))
      with (0 + Z.of_nat (length xs - Z.to_nat AUDIO_BUFFER_SIZE)
            + 1 * AUDIO_BUFFER_SIZE) at 1 by lia.
    apply Z_mod_plus_full.
Qed.

Lemma cursor_range_and_append_witness :
  let obj := append_one (append_one fresh silence) silence in
  0 <= m_audio_buffer_ptr obj <= AUDIO_BUFFER_SIZE /\
  m_audio_buffer_ptr (append_one obj silence)
  = m_audio_buffer_ptr obj mod AUDIO_BUFFER_SIZE + 1.
Proof.
  intros obj.
  destruct (cursor_range_and_append obj) as (Hrange & Happ & _).
  - unfold obj. apply reachable_append, reachable_append, fresh_reachable.
  - split; [exact Hrange|]. exact (proj1 (Happ silence)).
Defined.

(** C8, as stated, fails — After [AUDIO_BUFFER_SIZE] appends from the initial
    state the cursor is [AUDIO_BUFFER_SIZE], outside [0 .. AUDIO_BUFFER_SIZE - 1];
    the append that brings it there starts from cursor [15999] and does not
    leave [(15999 + 1) mod AUDIO_BUFFER_SIZE = 0]. *)
Lemma cursor_reaches_buffer_size :
  let prev := append_all fresh (replicate (Z.to_nat 15999) silence) in
  let obj := append_one prev silence in
  reachable prev /\ reachable obj /\
  m_audio_buffer_ptr prev = 15999 /\
  m_audio_buffer_ptr obj = 16000 /\
  (m_audio_buffer_ptr prev + 1) mod AUDIO_BUFFER_SIZE = 0 /\
  ~ (0 <= m_audio_buffer_ptr obj < AUDIO_BUFFER_SIZE) /\
  m_audio_buffer_ptr obj <> (m_audio_buffer_ptr prev + 1) mod AUDIO_BUFFER_SIZE.
Proof.
  intros prev obj.
  assert (reachable prev) as Hprev by apply reachable_append_all, fresh_reachable.
  assert (m_audio_buffer_ptr prev = 15999) as Hp.
  { unfold prev.
    replace (Z.to_nat 15999) with (Z.to_nat 15998 + 1)%nat by lia.
    rewrite replicate_add. cbn [replicate].
    rewrite append_all_ptr by (cbn; lia).
    rewrite length_replicate, Z2Nat.id by lia. reflexivity. }
  assert (m_audio_buffer_ptr obj = 16000) as Ho.
  { unfold obj, append_one. cbn. rewrite Hp. reflexivity. }
  assert (reachable obj) as Hobj by (apply reachable_append, Hprev).
  clearbody obj. clearbody prev. rewrite Ho, Hp. unfold AUDIO_BUFFER_SIZE.
  split_and!; [exact Hprev|exact Hobj|reflexivity|reflexivity|reflexivity|lia|discriminate].
Qed.

(** ** Fetch failures *)

(** C9 — When [fetch] returns [nullptr] or a result whose [ret_value] is
    [ESP_FAIL], the pass of [detectTask] goes on to the next fetch with the
    object as it was: no sample stored, the cursor where it was, the feature
    window not rebuilt. *)
Theorem fetch_failure_leaves_state (afe_chunksize : Z)
    (res : option afe_fetch_result_t) (obj : AppAudio) :
  res = None \/ (exists r, res = Some r /\ ret_value r = ESP_FAIL) ->
  let obj' := detectTask_iteration afe_chunksize res obj in
  obj' = obj /\
  m_audio_buffer obj' = m_audio_buffer obj /\
  m_audio_buffer_ptr obj' = m_audio_buffer_ptr obj /\
  m_features obj' = m_features obj.
Proof.
  intros [-> | (r & -> & Hr)]; cbn.
  - auto.
  - rewrite Hr. cbn. auto.
Qed.

Lemma fetch_failure_leaves_state_witness :
  detectTask_iteration 512 None fresh = fresh /\
  detectTask_iteration 512 (Some (mk_fetch ESP_FAIL (fun _ => silence))) fresh = fresh.
Proof.
  split.
  - apply (fetch_failure_leaves_state 512 None fresh). left. reflexivity.
  - apply (fetch_failure_leaves_state 512 (Some (mk_fetch ESP_FAIL (fun _ => silence))) fresh).
    right. eexists. split; reflexivity.
Defined.

(** ** Order of the scores *)

(** [SFltb] is the strict order of the ranks. *)
Lemma SFltb_rank (x y : float) :
  SFltb x y = true <->
  exists a b, SFrank x = Some a /\ SFrank y = Some b /\ rank_lt a b.
Proof. unfold SFltb, SFcompare. rank_cases x y; rank_solve. Qed.

(** [SFeqb] is equality of the ranks. *)
Lemma SFeqb_rank (x y : float) :
  SFeqb x y = true <->
  exists a b, SFrank x = Some a /\ SFrank y = Some b /\ a = b.
Proof.
  unfold SFeqb, SFcompare. rank_cases x y;
  (split;
   [ intros Hres; try discriminate Hres;
     eexists _, _; (split; [reflexivity|split; [reflexivity|repeat f_equal; lia]])
   | intros (a & b & Ha & Hb & Heq); try discriminate Ha; try discriminate Hb;
     injection Ha as <-; injection Hb as <-; try reflexivity;
     try discriminate Heq; injection Heq; lia ]).
Qed.

(** [SFleb] is the order of the ranks. *)
Lemma SFleb_rank (x y : float) :
  SFleb x y = true <->
  exists a b, SFrank x = Some a /\ SFrank y = Some b /\ (rank_lt a b \/ a = b).
Proof.
  unfold SFleb, SFcompare. rank_cases x y;
  (split;
   [ intros Hres; try discriminate Hres;
     eexists _, _; (split; [reflexivity|split; [reflexivity|]]);
     first [ left; cbn; lia | right; repeat f_equal; lia ]
   | intros (a & b & Ha & Hb & Hor); try discriminate Ha; try discriminate Hb;
     injection Ha as <-; injection Hb as <-; try reflexivity;
     destruct Hor as [Hlt | Heq];
     first [ cbn in Hlt; lia | try discriminate Heq; injection Heq; lia ] ]).
Qed.

Lemma rank_lt_irrefl a : ~ rank_lt a a.
Proof. destruct a as [[a1 a2] a3]. cbn. lia. Qed.

Lemma rank_lt_trans a b c : rank_lt a b -> rank_lt b c -> rank_lt a c.
Proof.
  destruct a as [[a1 a2] a3], b as [[b1 b2] b3], c as [[c1 c2] c3]. cbn. lia.
Qed.

Lemma SFltb_irrefl x : SFltb x x = false.
Proof.
  destruct (SFltb x x) eqn:E; [|reflexivity].
  apply SFltb_rank in E as (a & b & Ha & Hb & Hlt).
  rewrite Ha in Hb. injection Hb as <-. now apply rank_lt_irrefl in Hlt.
Qed.

Lemma SFltb_trans x y z : SFltb x y = true -> SFltb y z = true -> SFltb x z = true.
Proof.
  intros (a & b & Ha & Hb & Hab)%SFltb_rank (b' & c & Hb' & Hc & Hbc)%SFltb_rank.
  rewrite Hb in Hb'. injection Hb' as <-.
  apply SFltb_rank. exists a, c. split_and!; try assumption.
  eapply rank_lt_trans; eassumption.
Qed.

Lemma SFltb_asym x y : SFltb x y = true -> SFltb y x = false.
Proof.
  intros H. destruct (SFltb y x) eqn:E; [|reflexivity].
  pose proof (SFltb_trans _ _ _ H E) as Hxx. now rewrite SFltb_irrefl in Hxx.
Qed.

(** A score that equals another is not above what the other is not above. *)
Lemma SFltb_eqb_r x y z : SFltb x z = true -> SFeqb y z = true -> SFltb x y = true.
Proof.
  intros (a & c & Ha & Hc & Hac)%SFltb_rank (b & c' & Hb & Hc' & ->)%SFeqb_rank.
  rewrite Hc in Hc'. injection Hc' as <-.
  apply SFltb_rank. exists a, c. auto.
Qed.

Lemma SFeqb_not_ltb x y : SFeqb x y = true -> SFltb y x = false.
Proof.
  intros (a & b & Ha & Hb & ->)%SFeqb_rank.
  destruct (SFltb y x) eqn:E; [|reflexivity].
  apply SFltb_rank in E as (b' & a' & Hb' & Ha' & Hlt).
  rewrite Ha in Ha'. rewrite Hb in Hb'. injection Ha' as <-. injection Hb' as <-.
  now apply rank_lt_irrefl in Hlt.
Qed.

Lemma SFleb_not_ltb x y : SFleb x y = true -> SFltb y x = false.
Proof.
  intros (a & b & Ha & Hb & Hle)%SFleb_rank.
  destruct (SFltb y x) eqn:E; [|reflexivity].
  apply SFltb_rank in E as (b' & a' & Hb' & Ha' & Hlt).
  rewrite Ha in Ha'. rewrite Hb in Hb'. injection Ha' as <-. injection Hb' as <-.
  destruct Hle as [Hlt' | ->].
  - pose proof (rank_lt_trans _ _ _ Hlt Hlt') as H. now apply rank_lt_irrefl in H.
  - now apply rank_lt_irrefl in Hlt.
Qed.

Create HintDb score_order.
#[local] Hint Resolve SFltb_irrefl SFltb_trans SFltb_eqb_r : score_order.

(** ** Label reduction *)

Lemma for_loop_snoc {St : Type} (k : nat) (body : Z -> St -> St) (s : St) :
  for_loop (S k) 0 body s = body (Z.of_nat k) (for_loop k 0 body s).
Proof.
  replace (S k) with (k + 1)%nat by lia. rewrite for_loop_app. reflexivity.
Qed.

Lemma scan_labels_uint16_from (L : Z) (cls : Z -> float) (fuel : nat) (i idx : Z) :
  L <= 65535 -> 0 <= i <= L ->
  (Z.to_nat (L - i) < fuel)%nat ->
  scan_labels_uint16 L fuel cls i idx
  = Some (for_loop (Z.to_nat (L - i)) i (scan_one cls) idx).
Proof.
  intros HL. revert i idx.
  induction fuel as [|fuel IH]; intros i idx Hi Hf; [lia|].
  cbn [scan_labels_uint16]. destruct (Z.ltb_spec i L) as [Hlt|Hge].
  - rewrite Z.mod_small by lia. rewrite IH by lia.
    replace (Z.to_nat (L - i)) with (S (Z.to_nat (L - (i + 1)))) by lia.
    reflexivity.
  - replace (Z.to_nat (L - i)) with 0%nat by lia. reflexivity.
Qed.

(** The [uint16_t] counter does not wrap when the label count fits the type:
    with enough fuel the loop returns, and returns what [scan_labels] does. *)
Lemma scan_labels_uint16_spec (L : Z) (cls : Z -> float) (fuel : nat) (idx : Z) :
  0 <= L <= 65535 ->
  (Z.to_nat L < fuel)%nat ->
  scan_labels_uint16 L fuel cls 0 idx = Some (scan_labels L cls idx).
Proof.
  intros HL Hfuel. rewrite scan_labels_uint16_from by (rewrite ?Z.sub_0_r; lia).
  unfold scan_labels, for_int. now rewrite Z.sub_0_r.
Qed.

(** With a label count above the range of the counter the loop never leaves. *)
Lemma scan_labels_uint16_diverges (L : Z) (cls : Z -> float) (fuel : nat) (i idx : Z) :
  65535 < L -> 0 <= i <= 65535 ->
  scan_labels_uint16 L fuel cls i idx = None.
Proof.
  intros HL. revert i idx. induction fuel as [|fuel IH]; intros i idx Hi; [reflexivity|].
  cbn [scan_labels_uint16]. destruct (Z.ltb_spec i L); [|lia].
  apply IH. pose proof (Z.mod_pos_bound (i + 1) 65536). lia.
Qed.

(** What the scan has established after [k] labels: the running best [b] is
    the initial index or a scanned one; no scanned score is above its score;
    if it is not the initial index, no score before it equals its score, and
    its score is above the initial index's. *)
Lemma scan_invariant (cls : Z -> float) (k : nat) :
  let b := for_loop k 0 (scan_one cls) NOISE_IDX in
  (b = NOISE_IDX \/ 0 <= b < Z.of_nat k) /\
  (forall j, 0 <= j < Z.of_nat k -> SFltb (cls b) (cls j) = false) /\
  (b <> NOISE_IDX -> forall j, 0 <= j < b -> SFeqb (cls j) (cls b) = false) /\
  (b <> NOISE_IDX -> SFltb (cls NOISE_IDX) (cls b) = true).
Proof.
  induction k as [|k IH].
  - cbn. split_and!; [now left|intros; lia|congruence|congruence].
  - rewrite for_loop_snoc. cbn zeta in IH.
    set (b := for_loop k 0 (scan_one cls) NOISE_IDX) in *.
    destruct IH as (Hb & Hmax & Htie & Habove).
    cbn zeta. unfold scan_one.
    destruct (SFltb (cls b) (cls (Z.of_nat k))) eqn:Hgt.
    + split_and!.
      * right. lia.
      * intros j Hj. destruct (decide (j = Z.of_nat k)) as [->|Hne].
        -- auto with score_order.
        -- destruct (SFltb (cls (Z.of_nat k)) (cls j)) eqn:E; [|reflexivity].
           rewrite <- (Hmax j) by lia. symmetry. eauto with score_order.
      * intros _ j Hj.
        destruct (SFeqb (cls j) (cls (Z.of_nat k))) eqn:E; [|reflexivity].
        rewrite <- (Hmax j) by lia. symmetry. eauto with score_order.
      * intros _. destruct (decide (b = NOISE_IDX)) as [Heq|Hne].
        -- now rewrite <- Heq.
        -- eauto with score_order.
    + split_and!.
      * destruct Hb; [now left|right; lia].
      * intros j Hj. destruct (decide (j = Z.of_nat k)) as [->|Hne].
        -- exact Hgt.
        -- apply Hmax. lia.
      * exact Htie.
      * exact Habove.
Qed.

(** C3 — With status OK the reduction starts from [NOISE_IDX] and runs the
    scan over every label; a step of the scan changes the running best only
    for a score strictly greater than the running best's, and then to the
    scanned label; no label's score is above the result's.  When the scores of
    [CRYING_IDX] and [NOISE_IDX] are equal and no score is above them, the
    result is [NOISE_IDX].  For a label count that fits the [uint16_t]
    counter the loop as written returns this result. *)
Theorem label_reduction_ok (EI_CLASSIFIER_LABEL_COUNT : Z) (out : classifier_outcome) :
  status out = EI_IMPULSE_OK ->
  let cls := classification out in
  let r := label_reduction EI_CLASSIFIER_LABEL_COUNT out in
  r = for_int EI_CLASSIFIER_LABEL_COUNT (scan_one cls) NOISE_IDX /\
  (forall i idx, scan_one cls i idx <> idx ->
     SFltb (cls idx) (cls i) = true /\ scan_one cls i idx = i) /\
  (forall i idx, SFltb (cls idx) (cls i) = true -> scan_one cls i idx = i) /\
  (forall j, 0 <= j < EI_CLASSIFIER_LABEL_COUNT -> SFltb (cls r) (cls j) = false) /\
  (SFeqb (cls CRYING_IDX) (cls NOISE_IDX) = true ->
   (forall j, 0 <= j < EI_CLASSIFIER_LABEL_COUNT -> SFleb (cls j) (cls NOISE_IDX) = true) ->
   r = NOISE_IDX) /\
  (0 <= EI_CLASSIFIER_LABEL_COUNT <= 65535 ->
   forall fuel, (Z.to_nat EI_CLASSIFIER_LABEL_COUNT < fuel)%nat ->
     scan_labels_uint16 EI_CLASSIFIER_LABEL_COUNT fuel cls 0 NOISE_IDX = Some r).
Proof.
  intros Hok cls r.
  assert (r = for_int EI_CLASSIFIER_LABEL_COUNT (scan_one cls) NOISE_IDX) as Hr.
  { unfold r, label_reduction. rewrite Hok. reflexivity. }
  destruct (scan_invariant cls (Z.to_nat EI_CLASSIFIER_LABEL_COUNT))
    as (_ & Hmax & _ & Habove).
  unfold for_int in Hr. rewrite <- Hr in Hmax, Habove.
  split_and!.
  - exact Hr.
  - intros i idx. unfold scan_one. destruct (SFltb (cls idx) (cls i)); [auto|congruence].
  - intros i idx H. unfold scan_one. now rewrite H.
  - intros j Hj. apply Hmax. lia.
  - intros _ Htop. destruct (decide (r = NOISE_IDX)) as [Heq|Hne]; [exact Heq|].
    pose proof (Habove Hne) as Hgt.
    destruct (decide (0 <= r < EI_CLASSIFIER_LABEL_COUNT)) as [Hin|Hout].
    + rewrite (SFleb_not_ltb _ _ (Htop r Hin)) in Hgt. discriminate.
    + destruct (scan_invariant cls (Z.to_nat EI_CLASSIFIER_LABEL_COUNT)) as (Hb & _).
      rewrite <- Hr in Hb. lia.
  - intros HL fuel Hfuel. rewrite scan_labels_uint16_spec by assumption.
    now rewrite Hr.
Qed.

Lemma label_reduction_ok_witness :
  label_reduction 2 (mk_outcome EI_IMPULSE_OK (fun _ => half)) = NOISE_IDX.
Proof.
  destruct (label_reduction_ok 2 (mk_outcome EI_IMPULSE_OK (fun _ => half)))
    as (_ & _ & _ & _ & Htie & _).
  - reflexivity.
  - apply Htie.
    + reflexivity.
    + intros j _. reflexivity.
Defined.

(** C7, as stated, fails — With equal scores for labels 0 and 1 the scan of
    label 0 meets a running best (label 1, the initial index) of the same
    score and keeps it: the tie goes to the higher index. *)
Lemma tie_goes_to_noise_idx :
  let out := mk_outcome EI_IMPULSE_OK (scores half half) in
  SFeqb (classification out 0) (classification out 1) = true /\
  scan_one (classification out) 0 NOISE_IDX = 1 /\
  label_reduction 2 out = 1.
Proof. cbn. split_and!; reflexivity. Qed.

(** C7, as the code has it — A scanned label whose score equals the running
    best's leaves the running best in place; the running best is the initial
    index [NOISE_IDX] or a label scanned before.  For every score vector, a
    label whose score equals the result's has an index at or above the
    result's, except that the result [NOISE_IDX] (index 1) stands against an
    equal score of label 0. *)
Theorem tie_keeps_running_best (EI_CLASSIFIER_LABEL_COUNT : Z) (out : classifier_outcome) :
  status out = EI_IMPULSE_OK ->
  let cls := classification out in
  let r := label_reduction EI_CLASSIFIER_LABEL_COUNT out in
  (forall i idx, SFeqb (cls i) (cls idx) = true -> scan_one cls i idx = idx) /\
  (forall k : nat,
     let b := for_loop k 0 (scan_one cls) NOISE_IDX in
     b = NOISE_IDX \/ 0 <= b < Z.of_nat k) /\
  (forall j, 0 <= j < EI_CLASSIFIER_LABEL_COUNT ->
     SFeqb (cls j) (cls r) = true ->
     r <= j \/ (r = NOISE_IDX /\ j = CRYING_IDX)).
Proof.
  intros Hok cls r. split_and!.
  - intros i idx H. unfold scan_one. now rewrite (SFeqb_not_ltb _ _ H).
  - intros k. apply scan_invariant.
  - intros j Hj Heq.
    assert (r = for_loop (Z.to_nat EI_CLASSIFIER_LABEL_COUNT) 0 (scan_one cls) NOISE_IDX)
      as Hr by (unfold r, label_reduction; rewrite Hok; reflexivity).
    destruct (scan_invariant cls (Z.to_nat EI_CLASSIFIER_LABEL_COUNT))
      as (_ & _ & Htie & _).
    rewrite <- Hr in Htie.
    destruct (decide (r = NOISE_IDX)) as [Hn|Hn].
    + unfold NOISE_IDX, CRYING_IDX in *. lia.
    + destruct (decide (r <= j)) as [Hle|Hgt]; [now left|].
      rewrite (Htie Hn j) in Heq by lia. discriminate.
Qed.

Lemma tie_keeps_running_best_witness :
  let out := mk_outcome EI_IMPULSE_OK (scores half half) in
  scan_one (classification out) 0 NOISE_IDX = NOISE_IDX.
Proof.
  intros out.
  apply (tie_keeps_running_best 2 out); reflexivity.
Defined.

(** C4 — On a status other than OK the scan is not run and the reduced label
    is [NOISE_IDX], whatever the scores; the switch is given the same label,
    and does the same, as in a pass with status OK whose reduced label is
    [NOISE_IDX]. *)
Theorem failure_is_noise (EI_CLASSIFIER_LABEL_COUNT : Z)
    (out_fail out_ok : classifier_outcome) (obj : AppAudio) :
  status out_fail <> EI_IMPULSE_OK ->
  status out_ok = EI_IMPULSE_OK ->
  label_reduction EI_CLASSIFIER_LABEL_COUNT out_ok = NOISE_IDX ->
  label_reduction EI_CLASSIFIER_LABEL_COUNT out_fail = NOISE_IDX /\
  (forall cls,
     label_reduction EI_CLASSIFIER_LABEL_COUNT (mk_outcome (status out_fail) cls)
     = NOISE_IDX) /\
  label_reduction EI_CLASSIFIER_LABEL_COUNT out_fail
  = label_reduction EI_CLASSIFIER_LABEL_COUNT out_ok /\
  actionTask_iteration EI_CLASSIFIER_LABEL_COUNT out_fail obj
  = actionTask_iteration EI_CLASSIFIER_LABEL_COUNT out_ok obj.
Proof.
  intros Hfail Hok Hnoise.
  assert (forall cls,
            label_reduction EI_CLASSIFIER_LABEL_COUNT (mk_outcome (status out_fail) cls)
            = NOISE_IDX) as Hany.
  { intros cls. unfold label_reduction. cbn [status].
    destruct (Z.eqb_spec (status out_fail) EI_IMPULSE_OK); [contradiction|reflexivity]. }
  assert (label_reduction EI_CLASSIFIER_LABEL_COUNT out_fail = NOISE_IDX) as Hf.
  { destruct out_fail as [st cls]. apply Hany. }
  unfold actionTask_iteration. rewrite Hf, Hnoise. auto.
Qed.

Lemma failure_is_noise_witness :
  actionTask_iteration 2 (mk_outcome (-3) (scores half quarter)) fresh
  = actionTask_iteration 2 (mk_outcome EI_IMPULSE_OK (scores quarter half)) fresh.
Proof.
  apply (failure_is_noise 2 (mk_outcome (-3) (scores half quarter))
           (mk_outcome EI_IMPULSE_OK (scores quarter half)) fresh).
  - discriminate.
  - reflexivity.
  - reflexivity.
Defined.

(** ** The crying latch *)

(** C1 — The switch of [actionTask] is the table: not crying and label
    [CRYING_IDX] gives crying and one call [m_crying_fn(true)]; crying and
    label [NOISE_IDX] gives not crying and one call [m_crying_fn(false)]; any
    other label changes nothing and calls nothing, in either state; the label
    of the present state calls nothing; and [init] leaves the latch at not
    crying without a call. *)
Theorem debounce_table (obj : AppAudio) (label : Z)
    (raw_audio raw_features : list float) :
  (m_crying (fst (init raw_audio raw_features)) = false /\
   snd (init raw_audio raw_features) = []) /\
  (m_crying obj = false ->
   action_switch CRYING_IDX obj = (set_crying obj true, [true]) /\
   m_crying (fst (action_switch CRYING_IDX obj)) = true) /\
  (m_crying obj = true ->
   action_switch NOISE_IDX obj = (set_crying obj false, [false]) /\
   m_crying (fst (action_switch NOISE_IDX obj)) = false) /\
  (label <> CRYING_IDX -> label <> NOISE_IDX ->
   action_switch label obj = (obj, [])) /\
  (m_crying obj = true -> action_switch CRYING_IDX obj = (obj, [])) /\
  (m_crying obj = false -> action_switch NOISE_IDX obj = (obj, [])).
Proof.
  split_and!; try reflexivity.
  - intros H. unfold action_switch. cbn. rewrite H. auto.
  - intros H. unfold action_switch. cbn. rewrite H. auto.
  - intros H1 H2. unfold action_switch.
    destruct (Z.eqb_spec label CRYING_IDX); [contradiction|].
    destruct (Z.eqb_spec label NOISE_IDX); [contradiction|reflexivity].
  - intros H. unfold action_switch. cbn. now rewrite H.
  - intros H. unfold action_switch. cbn. now rewrite H.
Qed.

Lemma debounce_table_witness :
  action_switch CRYING_IDX fresh = (set_crying fresh true, [true]) /\
  action_switch NOISE_IDX (set_crying fresh true) = (fresh, [false]) /\
  action_switch 2 fresh = (fresh, []) /\
  action_switch CRYING_IDX (set_crying fresh true) = (set_crying fresh true, []) /\
  action_switch NOISE_IDX fresh = (fresh, []).
Proof.
  destruct (debounce_table fresh 2 [] []) as (_ & Hq1 & _ & Hq3 & _ & Hq5).
  destruct (debounce_table (set_crying fresh true) 2 [] []) as (_ & _ & Hc2 & _ & Hc4 & _).
  split_and!.
  - apply Hq1. reflexivity.
  - apply Hc2. reflexivity.
  - apply Hq3; unfold CRYING_IDX, NOISE_IDX; lia.
  - apply Hc4. reflexivity.
  - apply Hq5. reflexivity.
Defined.

(** A step calls the callback once when it changes the latch, and not
    otherwise. *)
Lemma action_switch_events (l : Z) (obj : AppAudio) :
  length (snd (action_switch l obj))
  = if Bool.eqb (m_crying obj) (m_crying (fst (action_switch l obj)))
    then 0%nat else 1%nat.
Proof.
  unfold action_switch.
  destruct (l =? CRYING_IDX), (l =? NOISE_IDX), (m_crying obj) eqn:E;
    cbn; rewrite ?E; reflexivity.
Qed.

Lemma state_trace_head (labels : list Z) (obj : AppAudio) :
  exists tl, state_trace labels obj = m_crying obj :: tl.
Proof. destruct labels; cbn; eauto. Qed.

(** Over a run, the calls are as many as the changes of the latch. *)
Lemma debounce_run_events (labels : list Z) (obj : AppAudio) :
  length (snd (debounce_run labels obj)) = state_changes (state_trace labels obj).
Proof.
  revert obj. induction labels as [|l ls IH]; intros obj; [reflexivity|].
  cbn [debounce_run state_trace].
  pose proof (action_switch_events l obj) as Hstep.
  destruct (action_switch l obj) as [obj1 e1]. cbn [fst snd] in *.
  specialize (IH obj1).
  destruct (debounce_run ls obj1) as [obj2 e2]. cbn [fst snd] in *.
  destruct (state_trace_head ls obj1) as [tl Htl]. rewrite Htl in *.
  cbn [state_changes]. rewrite length_app, Hstep, IH. reflexivity.
Qed.

(** C5 — For every sequence of labels run through the switch from the state
    [init] leaves, the calls of the callback are at most as many as the
    changes in the sequence of latch values; and a label met in the state it
    stands for calls nothing and changes nothing. *)
Theorem events_bounded_by_state_changes (labels : list Z)
    (raw_audio raw_features : list float) :
  let obj0 := fst (init raw_audio raw_features) in
  m_crying obj0 = false /\
  (length (snd (debounce_run labels obj0))
   <= state_changes (state_trace labels obj0))%nat /\
  (forall obj l,
     label_state l = Some (m_crying obj) -> action_switch l obj = (obj, [])).
Proof.
  intros obj0. split_and!.
  - reflexivity.
  - now rewrite debounce_run_events.
  - intros obj l. unfold label_state, action_switch.
    destruct (l =? CRYING_IDX); [|destruct (l =? NOISE_IDX)];
      intros H; try discriminate H; injection H as H; rewrite <- H; reflexivity.
Qed.

Lemma events_bounded_by_state_changes_witness :
  action_switch CRYING_IDX (set_crying fresh true) = (set_crying fresh true, []).
Proof.
  apply (events_bounded_by_state_changes [CRYING_IDX; CRYING_IDX; 2; NOISE_IDX] [] []).
  reflexivity.
Defined.

(** ** Failing inference *)

Lemma failing_run_quiet (EI_CLASSIFIER_LABEL_COUNT : Z)
    (outs : list classifier_outcome) (obj : AppAudio) :
  m_crying obj = false ->
  Forall (fun o => status o <> EI_IMPULSE_OK) outs ->
  actionTask_run EI_CLASSIFIER_LABEL_COUNT outs obj = (obj, []).
Proof.
  intros Hq Hall. unfold actionTask_run.
  induction Hall as [|o os Ho _ IH]; [reflexivity|].
  cbn [map debounce_run]. unfold label_reduction at 1.
  destruct (Z.eqb_spec (status o) EI_IMPULSE_OK); [contradiction|].
  unfold action_switch. cbn. rewrite Hq. now rewrite IH.
Qed.

(** C6 — From the crying state, a pass whose inference fails, followed by any
    number of further failing passes, calls [m_crying_fn(false)] once, in the
    first of these passes, and calls nothing in the passes after it. *)
Theorem failing_run_clears_once (EI_CLASSIFIER_LABEL_COUNT : Z)
    (out : classifier_outcome) (outs : list classifier_outcome) (obj : AppAudio) :
  m_crying obj = true ->
  status out <> EI_IMPULSE_OK ->
  Forall (fun o => status o <> EI_IMPULSE_OK) outs ->
  let first := actionTask_iteration EI_CLASSIFIER_LABEL_COUNT out obj in
  snd first = [false] /\
  m_crying (fst first) = false /\
  snd (actionTask_run EI_CLASSIFIER_LABEL_COUNT outs (fst first)) = [] /\
  snd (actionTask_run EI_CLASSIFIER_LABEL_COUNT (out :: outs) obj) = [false].
Proof.
  intros Hc Hout Hall first.
  assert (first = (set_crying obj false, [false])) as Hfirst.
  { unfold first, actionTask_iteration, label_reduction.
    destruct (Z.eqb_spec (status out) EI_IMPULSE_OK); [contradiction|].
    unfold action_switch. cbn. now rewrite Hc. }
  pose proof (failing_run_quiet EI_CLASSIFIER_LABEL_COUNT outs
                (set_crying obj false) eq_refl Hall) as Hrest.
  rewrite Hfirst. cbn [fst snd]. split_and!; try reflexivity.
  - now rewrite Hrest.
  - unfold actionTask_run in *. cbn [map debounce_run].
    fold (actionTask_iteration EI_CLASSIFIER_LABEL_COUNT out obj).
    fold first. rewrite Hfirst, Hrest. reflexivity.
Qed.

Lemma failing_run_clears_once_witness :
  let failed := mk_outcome (-3) (scores half quarter) in
  snd (actionTask_run 2 [failed; failed; failed] (set_crying fresh true)) = [false].
Proof.
  intros failed.
  apply (failing_run_clears_once 2 failed [failed; failed] (set_crying fresh true)).
  - reflexivity.
  - discriminate.
  - repeat constructor; discriminate.
Defined.

(** ** The data callback *)

Lemma size_t_mul_small (size_bits a b : Z) :
  0 <= a * b < 2 ^ size_bits -> size_t_mul size_bits a b = a * b.
Proof. intros H. unfold size_t_mul. now apply Z.mod_small. Qed.

(** C10, as stated, fails — Two requests with [offset + length] above
    [AUDIO_BUFFER_SIZE] that never reach the out-of-range branch, because the
    copy is of zero bytes: on a 32-bit [size_t] the request [(0, 2^30)], whose
    byte count [2^30 * 4] wraps to [0], and the empty request [(16001, 0)].
    Nothing is read and [0] is returned. *)
Lemma zero_byte_copy_reads_nothing :
  AUDIO_BUFFER_SIZE < 0 + 2 ^ 30 /\
  size_t_mul 32 (2 ^ 30) sizeof_float = 0 /\
  get_data_fn 32 fresh 0 (2 ^ 30) = (Copied [], 0) /\
  fst (get_data_fn 32 fresh 0 (2 ^ 30)) <> OutOfRange /\
  AUDIO_BUFFER_SIZE < 16001 + 0 /\
  get_data_fn 32 fresh 16001 0 = (Copied [], 0) /\
  fst (get_data_fn 32 fresh 16001 0) <> OutOfRange.
Proof.
  assert (get_data_fn 32 fresh 0 (2 ^ 30) = (Copied [], 0)) as H1 by reflexivity.
  assert (get_data_fn 32 fresh 16001 0 = (Copied [], 0)) as H2 by reflexivity.
  rewrite H1, H2.
  split_and!; [reflexivity|reflexivity|reflexivity|discriminate
              |reflexivity|reflexivity|discriminate].
Qed.

(** C10, as the code has it — The callback checks no bounds and returns [0]
    for every request.  For a request with [offset + length] at most
    [AUDIO_BUFFER_SIZE] it copies exactly the window entries
    [offset .. offset + length - 1].  A request whose byte count is zero (an
    empty request, or a length whose product with [sizeof(float)] wraps to
    zero) reads nothing at any offset.  For a non-empty request whose byte
    range [(offset + length) * sizeof(float)] does not wrap in [size_t], the
    out-of-range branch is left out exactly when [offset + length] is at most
    [AUDIO_BUFFER_SIZE]. *)
Theorem get_data_fn_unchecked (size_bits : Z) (obj : AppAudio) (offset len : Z) :
  16 <= size_bits ->
  Z.of_nat (length (m_features obj)) = AUDIO_BUFFER_SIZE ->
  0 <= offset -> 0 <= len ->
  let res := get_data_fn size_bits obj offset len in
  snd res = 0 /\
  (offset + len <= AUDIO_BUFFER_SIZE ->
   fst res = Copied (take (Z.to_nat len) (drop (Z.to_nat offset) (m_features obj))) /\
   Z.of_nat (length (take (Z.to_nat len) (drop (Z.to_nat offset) (m_features obj)))) = len /\
   forall i, 0 <= i < len ->
     take (Z.to_nat len) (drop (Z.to_nat offset) (m_features obj)) !! Z.to_nat i
     = m_features obj !! Z.to_nat (offset + i)) /\
  (size_t_mul size_bits len sizeof_float = 0 -> fst res = Copied []) /\
  (0 < len -> (offset + len) * sizeof_float < 2 ^ size_bits ->
   (fst res <> OutOfRange <-> offset + len <= AUDIO_BUFFER_SIZE)).
Proof.
  intros Hbits Hlen Hoff Hl res.
  assert (2 ^ 16 <= 2 ^ size_bits) as Hpow by (apply Z.pow_le_mono_r; lia).
  change (2 ^ 16) with 65536 in Hpow.
  unfold res, get_data_fn, memcpy_floats, sizeof_float, AUDIO_BUFFER_SIZE in *.
  cbn [fst snd]. rewrite Hlen. split_and!.
  - reflexivity.
  - intros Hin. rewrite size_t_mul_small by lia.
    rewrite Z.div_mul by discriminate.
    destruct (Z.leb_spec (offset * 4 + len * 4) (16000 * 4)) as [_|Hgt]; [|lia].
    split_and!.
    + destruct (Z.eqb_spec (len * 4) 0) as [E|E]; [|reflexivity].
      replace len with 0 by lia. reflexivity.
    + rewrite length_take, length_drop. lia.
    + intros i Hi. rewrite lookup_take_lt by lia. rewrite lookup_drop.
      f_equal. lia.
  - intros Hzero. rewrite Hzero. reflexivity.
  - intros Hpos Hnowrap. rewrite size_t_mul_small by lia.
    destruct (Z.eqb_spec (len * 4) 0) as [E|_]; [lia|].
    destruct (Z.leb_spec (offset * 4 + len * 4) (16000 * 4)) as [Hle|Hgt].
    + split; [lia|discriminate].
    + split; [congruence|lia].
Qed.

Lemma get_data_fn_unchecked_witness :
  get_data_fn 32 fresh 15000 1000
  = (Copied (take (Z.to_nat 1000) (drop (Z.to_nat 15000) (m_features fresh))), 0).
Proof.
  destruct (get_data_fn_unchecked 32 fresh 15000 1000) as (Hret & Hcopy & _).
  - lia.
  - unfold fresh. cbn [init fst m_features]. now rewrite length_replicate.
  - lia.
  - lia.
  - destruct Hcopy as (Hcopy & _); [unfold AUDIO_BUFFER_SIZE; lia|].
    destruct (get_data_fn 32 fresh 15000 1000) as [c z].
    cbn [fst snd] in *. now rewrite Hret, Hcopy.
Defined.

(** ** The two tasks work on different members *)

Lemma set_crying_same obj : set_crying obj (m_crying obj) = obj.
Proof. destruct obj. reflexivity. Qed.

Lemma for_loop_set_crying (k : nat) (i : Z) (body : Z -> AppAudio -> AppAudio)
    (c : bool) (obj : AppAudio) :
  (forall j o, body j (set_crying o c) = set_crying (body j o) c) ->
  for_loop k i body (set_crying obj c) = set_crying (for_loop k i body obj) c.
Proof.
  intros Hbody. revert i obj.
  induction k as [|k IH]; intros i obj; [reflexivity|].
  cbn [for_loop]. rewrite Hbody. apply IH.
Qed.

Lemma detectTask_iteration_set_crying afe_chunksize res obj c :
  detectTask_iteration afe_chunksize res (set_crying obj c)
  = set_crying (detectTask_iteration afe_chunksize res obj) c.
Proof.
  unfold detectTask_iteration. destruct res as [r|]; [|reflexivity].
  destruct (ret_value r =? ESP_FAIL); [reflexivity|].
  unfold rebuild_features, for_int.
  rewrite (for_loop_set_crying _ _ (fun i o => append_one o (data r i)))
    by reflexivity.
  apply for_loop_set_crying. reflexivity.
Qed.

Lemma detectTask_iteration_crying afe_chunksize res obj :
  m_crying (detectTask_iteration afe_chunksize res obj) = m_crying obj.
Proof.
  rewrite <- (set_crying_same obj) at 1.
  rewrite detectTask_iteration_set_crying. reflexivity.
Qed.

(** What the switch does depends on the label and the latch only, and it
    writes the latch only. *)
Lemma action_switch_as_set (l : Z) (c0 : bool) :
  exists c evs, forall o,
    m_crying o = c0 -> action_switch l o = (set_crying o c, evs).
Proof.
  unfold action_switch.
  destruct (l =? CRYING_IDX); [|destruct (l =? NOISE_IDX)]; destruct c0.
  - exists true, []. intros o H. rewrite H. cbn. now rewrite <- H, set_crying_same.
  - exists true, [true]. intros o H. now rewrite H.
  - exists false, [false]. intros o H. now rewrite H.
  - exists false, []. intros o H. rewrite H. cbn. now rewrite <- H, set_crying_same.
  - exists true, []. intros o H. now rewrite <- H, set_crying_same.
  - exists false, []. intros o H. now rewrite <- H, set_crying_same.
Qed.

(** X8 — The switch of [actionTask] and a pass of [detectTask] do not
    interfere: the switch leaves the buffer, the cursor and the feature window
    as they are, and running the switch before or after a pass of [detectTask]
    gives the same object and the same callback calls. *)
Theorem tasks_commute (afe_chunksize : Z) (res : option afe_fetch_result_t)
    (l : Z) (obj : AppAudio) :
  action_switch l (detectTask_iteration afe_chunksize res obj)
  = (detectTask_iteration afe_chunksize res (fst (action_switch l obj)),
     snd (action_switch l obj)) /\
  m_audio_buffer (fst (action_switch l obj)) = m_audio_buffer obj /\
  m_audio_buffer_ptr (fst (action_switch l obj)) = m_audio_buffer_ptr obj /\
  m_features (fst (action_switch l obj)) = m_features obj.
Proof.
  destruct (action_switch_as_set l (m_crying obj)) as (c & evs & Hsw).
  rewrite (Hsw obj eq_refl).
  rewrite (Hsw _ (detectTask_iteration_crying afe_chunksize res obj)).
  cbn [fst snd]. rewrite detectTask_iteration_set_crying.
  split_and!; reflexivity.
Qed.

(** ** The feature window as a sliding window *)

(** The lemmas from here on reason about the rebuild through
    [rebuild_features_spec]; its 16000 rounds are never run. *)
#[local] Opaque rebuild_features.

Lemma AppAudio_eq (a b : AppAudio) :
  m_audio_buffer a = m_audio_buffer b ->
  m_features a = m_features b ->
  m_audio_buffer_ptr a = m_audio_buffer_ptr b ->
  m_crying a = m_crying b ->
  a = b.
Proof. destruct a, b. cbn. now intros -> -> -> ->. Qed.

Lemma window_length obj :
  well_formed obj -> Z.of_nat (length (window obj)) = AUDIO_BUFFER_SIZE.
Proof.
  intros H. destruct (rebuild_features_spec obj H) as (_ & _ & _ & Hl & _).
  exact Hl.
Qed.

Lemma window_lookup obj i :
  well_formed obj -> 0 <= i < AUDIO_BUFFER_SIZE ->
  window obj !! Z.to_nat i
  = m_audio_buffer obj
      !! Z.to_nat ((m_audio_buffer_ptr obj + i) mod AUDIO_BUFFER_SIZE).
Proof.
  intros H. destruct (rebuild_features_spec obj H) as (_ & _ & _ & _ & Hi).
  exact (Hi i).
Qed.

(** One more sample moves the window by one place. *)
Lemma window_append_one obj x :
  well_formed obj ->
  window (append_one obj x) = drop 1 (window obj ++ [x]).
Proof.
  intros Hwf.
  pose proof (append_one_well_formed obj x Hwf) as Hwf'.
  pose proof (window_length _ Hwf) as Hl.
  pose proof (window_length _ Hwf') as Hl'.
  pose proof Hwf as (Hb & _ & Hp).
  apply list_eq_same_length with (n := Z.to_nat AUDIO_BUFFER_SIZE).
  - rewrite length_drop, length_app. cbn [length]. lia.
  - lia.
  - intros i a b Hi Ha Hb'.
    rewrite lookup_drop in Hb'.
    rewrite <- (Nat2Z.id i), window_lookup in Ha by (assumption || lia).
    unfold append_one in Ha. cbn in Ha.
    rewrite Z.rem_mod_nonneg in Ha by (unfold AUDIO_BUFFER_SIZE; lia).
    assert (0 < AUDIO_BUFFER_SIZE) as Hpos by reflexivity.
    pose proof (Z.mod_pos_bound (m_audio_buffer_ptr obj) AUDIO_BUFFER_SIZE Hpos) as Hm.
    destruct (decide (1 + i < Z.to_nat AUDIO_BUFFER_SIZE)%nat) as [Hlt|Hge].
    + rewrite lookup_app_l in Hb' by lia.
      rewrite <- (Nat2Z.id (1 + i)), window_lookup in Hb' by (assumption || lia).
      rewrite list_lookup_insert_ne in Ha.
      * replace ((m_audio_buffer_ptr obj `mod` AUDIO_BUFFER_SIZE + 1 + Z.of_nat i)
                   `mod` AUDIO_BUFFER_SIZE)
          with ((m_audio_buffer_ptr obj + Z.of_nat (1 + i)) `mod` AUDIO_BUFFER_SIZE)
          in Ha; [congruence|].
        rewrite <- !Z.add_assoc, Zplus_mod_idemp_l. f_equal. lia.
      * intros Heq. apply Z2Nat.inj in Heq; [| lia | apply Z.mod_pos_bound; lia].
        clear - Heq Hm Hlt. revert Heq Hm.
        generalize (m_audio_buffer_ptr obj `mod` AUDIO_BUFFER_SIZE) as q.
        intros q Heq Hq. unfold AUDIO_BUFFER_SIZE in *.
        revert Heq. Z.div_mod_to_equations. lia.
    + rewrite lookup_app_r in Hb' by lia.
      replace (1 + i - length (window obj))%nat with 0%nat in Hb' by lia.
      cbn in Hb'.
      replace ((m_audio_buffer_ptr obj `mod` AUDIO_BUFFER_SIZE + 1 + Z.of_nat i)
                 `mod` AUDIO_BUFFER_SIZE)
        with (m_audio_buffer_ptr obj `mod` AUDIO_BUFFER_SIZE) in Ha.
      * rewrite list_lookup_insert_eq in Ha by lia. congruence.
      * replace (m_audio_buffer_ptr obj `mod` AUDIO_BUFFER_SIZE + 1 + Z.of_nat i)
          with (m_audio_buffer_ptr obj `mod` AUDIO_BUFFER_SIZE + 1 * AUDIO_BUFFER_SIZE)
          by lia.
        rewrite Z_mod_plus_full. symmetry. apply Z.mod_small. exact Hm.
Qed.

Lemma window_append_all obj xs :
  well_formed obj ->
  window (append_all obj xs) = drop (length xs) (window obj ++ xs).
Proof.
  intros Hwf. induction xs as [|x xs IH] using rev_ind.
  - unfold append_all. cbn [foldl length drop]. rewrite app_nil_r. reflexivity.
  - rewrite append_all_snoc, window_append_one
      by (apply append_all_well_formed; exact Hwf).
    rewrite IH, length_app. cbn [length].
    pose proof (window_length _ Hwf) as Hl. unfold AUDIO_BUFFER_SIZE in Hl.
    rewrite app_assoc.
    rewrite <- (drop_app_le (window obj ++ xs) [x]) by (rewrite length_app; lia).
    rewrite drop_drop. f_equal; lia.
Qed.

Lemma rebuild_features_well_formed obj :
  well_formed obj -> well_formed (rebuild_features obj).
Proof.
  intros Hwf. destruct (rebuild_features_spec obj Hwf) as (Eb & Ep & _ & El & _).
  destruct Hwf as (Hb & _ & Hp). unfold well_formed. rewrite Eb, Ep. auto.
Qed.

Lemma rebuild_features_set obj :
  well_formed obj -> rebuild_features obj = set_features obj (window obj).
Proof.
  intros Hwf. destruct (rebuild_features_spec obj Hwf) as (Eb & Ep & Ec & _).
  apply AppAudio_eq;
    cbn [set_features m_audio_buffer m_features m_audio_buffer_ptr m_crying];
    [exact Eb|reflexivity|exact Ep|exact Ec].
Qed.

(** The rebuild reads the buffer and the cursor only. *)
Lemma window_set_features obj f :
  well_formed obj ->
  Z.of_nat (length f) = AUDIO_BUFFER_SIZE ->
  window (set_features obj f) = window obj.
Proof.
  intros Hwf Hf.
  assert (well_formed (set_features obj f)) as Hwf'.
  { destruct Hwf as (? & ? & ?). unfold well_formed.
    cbn [set_features m_audio_buffer m_features m_audio_buffer_ptr]. auto. }
  apply list_eq_same_length with (n := Z.to_nat AUDIO_BUFFER_SIZE).
  - pose proof (window_length _ Hwf). lia.
  - pose proof (window_length _ Hwf'). lia.
  - intros i a b Hi Ha Hb.
    rewrite <- (Nat2Z.id i), window_lookup in Ha, Hb by (assumption || lia).
    cbn [set_features m_audio_buffer m_audio_buffer_ptr] in Ha. congruence.
Qed.

Lemma append_all_set_features obj f xs :
  append_all (set_features obj f) xs = set_features (append_all obj xs) f.
Proof.
  revert obj. induction xs as [|x xs IH]; intros obj; [reflexivity|].
  unfold append_all in *. cbn [foldl]. rewrite <- IH. reflexivity.
Qed.


(** A pass of [detectTask] on an object whose window is up to date: the
    accepted samples appended, the window rebuilt. *)
Lemma detectTask_iteration_accepted afe_chunksize res obj :
  in_sync obj ->
  detectTask_iteration afe_chunksize res obj
  = rebuild_features (append_all obj (accepted_samples afe_chunksize res)).
Proof.
  intros Hsync. destruct res as [r|]; cbn [accepted_samples detectTask_iteration].
  - destruct (Z.eqb_spec (ret_value r) ESP_FAIL) as [E|E].
    + symmetry. exact Hsync.
    + unfold for_int. rewrite for_loop_fill. reflexivity.
  - symmetry. exact Hsync.
Qed.

Lemma rebuild_features_in_sync obj :
  well_formed obj -> in_sync (rebuild_features obj).
Proof.
  intros Hwf. unfold in_sync.
  rewrite (rebuild_features_set obj Hwf).
  assert (well_formed (set_features obj (window obj))) as Hwf'.
  { pose proof (window_length obj Hwf) as Hl.
    destruct Hwf as (? & ? & ?). unfold well_formed.
    cbn [set_features m_audio_buffer m_features m_audio_buffer_ptr]. auto. }
  rewrite (rebuild_features_set _ Hwf').
  rewrite (window_set_features obj (window obj) Hwf (window_length obj Hwf)).
  unfold set_features.
  cbn [m_audio_buffer m_features m_audio_buffer_ptr m_crying]. reflexivity.
Qed.

Lemma detectTask_run_accepted afe_chunksize fetched obj :
  well_formed obj -> in_sync obj ->
  detectTask_run afe_chunksize fetched obj
  = rebuild_features
      (append_all obj (concat (map (accepted_samples afe_chunksize) fetched))).
Proof.
  revert obj. induction fetched as [|res rest IH]; intros obj Hwf Hsync.
  - symmetry. exact Hsync.
  - unfold detectTask_run in *. cbn [foldl map concat].
    rewrite detectTask_iteration_accepted by assumption.
    set (s1 := accepted_samples afe_chunksize res).
    set (s2 := concat (map (accepted_samples afe_chunksize) rest)) in *.
    set (mid := append_all obj s1).
    assert (well_formed mid) as Hmid by (apply append_all_well_formed; exact Hwf).
    rewrite (IH (rebuild_features mid)
               (rebuild_features_well_formed mid Hmid)
               (rebuild_features_in_sync mid Hmid)).
    rewrite (rebuild_features_set mid Hmid), append_all_set_features.
    assert (append_all obj (s1 ++ s2) = append_all mid s2) as ->
      by (unfold mid, append_all; apply foldl_app).
    set (fin := append_all mid s2).
    assert (well_formed fin) as Hfin by (apply append_all_well_formed; exact Hmid).
    pose proof (window_length mid Hmid) as Hlen.
    assert (well_formed (set_features fin (window mid))) as Hfin'.
    { destruct Hfin as (? & ? & ?). unfold well_formed.
      cbn [set_features m_audio_buffer m_features m_audio_buffer_ptr]. auto. }
    rewrite (rebuild_features_set _ Hfin'), (rebuild_features_set _ Hfin).
    rewrite (window_set_features fin (window mid) Hfin Hlen).
    unfold set_features.
    cbn [m_audio_buffer m_features m_audio_buffer_ptr m_crying]. reflexivity.
Qed.

(** X1 — The feature window slides: after any run of appends and a rebuild
    it is the former window followed by the new samples, with as many entries
    dropped from the front as samples were appended.  This holds before the
    buffer has been filled as well as after. *)
Theorem window_slides (obj : AppAudio) (xs : list float) :
  well_formed obj ->
  m_features (rebuild_features (append_all obj xs))
  = drop (length xs) (m_features (rebuild_features obj) ++ xs).
Proof. exact (window_append_all obj xs). Qed.

Lemma window_slides_witness :
  m_features (rebuild_features (append_all fresh (ramp 3)))
  = drop 3 (m_features (rebuild_features fresh) ++ ramp 3).
Proof. apply (window_slides fresh (ramp 3)). exact fresh_well_formed. Defined.

Lemma window_init raw_audio raw_features :
  Z.of_nat (length raw_audio) = AUDIO_BUFFER_SIZE ->
  Z.of_nat (length raw_features) = AUDIO_BUFFER_SIZE ->
  window (fst (init raw_audio raw_features)) = raw_audio.
Proof.
  intros Ha Hf.
  assert (well_formed (fst (init raw_audio raw_features))) as Hwf.
  { unfold well_formed, AUDIO_BUFFER_SIZE in *. cbn. lia. }
  apply list_eq_same_length with (n := Z.to_nat AUDIO_BUFFER_SIZE).
  - lia.
  - pose proof (window_length _ Hwf). lia.
  - intros i a b Hi Hwa Hb.
    rewrite <- (Nat2Z.id i), window_lookup in Hwa by (assumption || lia).
    cbn [init fst m_audio_buffer m_audio_buffer_ptr] in Hwa.
    rewrite Z.add_0_l, (Z.mod_small (Z.of_nat i)), Nat2Z.id in Hwa by lia.
    congruence.
Qed.

(** X2 — Before the buffer has been filled for the first time the window
    handed to the classifier starts with the part of the freshly allocated,
    never written audio array that the samples have not yet reached: with
    [N <= AUDIO_BUFFER_SIZE] samples appended since [init], the window is the
    array without its first [N] entries, followed by the [N] samples. *)
Theorem window_before_first_fill (raw_audio raw_features xs : list float) :
  Z.of_nat (length raw_audio) = AUDIO_BUFFER_SIZE ->
  Z.of_nat (length raw_features) = AUDIO_BUFFER_SIZE ->
  Z.of_nat (length xs) <= AUDIO_BUFFER_SIZE ->
  m_features (rebuild_features (append_all (fst (init raw_audio raw_features)) xs))
  = drop (length xs) raw_audio ++ xs.
Proof.
  intros Ha Hf Hxs.
  assert (well_formed (fst (init raw_audio raw_features))) as Hwf.
  { unfold well_formed, AUDIO_BUFFER_SIZE in *. cbn. lia. }
  change (window (append_all (fst (init raw_audio raw_features)) xs)
          = drop (length xs) raw_audio ++ xs).
  rewrite window_append_all, window_init by assumption.
  apply drop_app_le. lia.
Qed.

Lemma window_before_first_fill_witness :
  m_features (rebuild_features (append_all fresh (ramp 3)))
  = drop 3 (replicate (Z.to_nat AUDIO_BUFFER_SIZE) S754_nan) ++ ramp 3.
Proof.
  apply (window_before_first_fill
           (replicate (Z.to_nat AUDIO_BUFFER_SIZE) S754_nan)
           (replicate (Z.to_nat AUDIO_BUFFER_SIZE) S754_nan) (ramp 3)).
  - rewrite length_replicate. reflexivity.
  - rewrite length_replicate. reflexivity.
  - vm_compute. discriminate.
Defined.

(** X3 — The rebuilt window is the buffer rotated: the entries from slot
    [w mod AUDIO_BUFFER_SIZE] to the end, then the entries before that slot. *)
Theorem window_is_rotation (obj : AppAudio) :
  well_formed obj ->
  let k := Z.to_nat (m_audio_buffer_ptr obj mod AUDIO_BUFFER_SIZE) in
  m_features (rebuild_features obj)
  = drop k (m_audio_buffer obj) ++ take k (m_audio_buffer obj).
Proof.
  intros Hwf k. change (window obj = drop k (m_audio_buffer obj) ++ take k (m_audio_buffer obj)).
  pose proof Hwf as (Hb & _ & Hp).
  assert (0 < AUDIO_BUFFER_SIZE) as Hpos by reflexivity.
  pose proof (Z.mod_pos_bound (m_audio_buffer_ptr obj) AUDIO_BUFFER_SIZE Hpos) as Hm.
  apply list_eq_same_length with (n := Z.to_nat AUDIO_BUFFER_SIZE).
  - rewrite length_app, length_drop, length_take. unfold k. lia.
  - pose proof (window_length _ Hwf). lia.
  - intros i a b Hi Ha Hb'.
    rewrite <- (Nat2Z.id i), window_lookup in Ha by (assumption || lia).
    rewrite <- Zplus_mod_idemp_l in Ha.
    destruct (decide (k + i < Z.to_nat AUDIO_BUFFER_SIZE)%nat) as [Hlt|Hge].
    + rewrite lookup_app_l in Hb' by (rewrite length_drop; lia).
      rewrite lookup_drop in Hb'.
      rewrite Z.mod_small in Ha by lia.
      replace (Z.to_nat (m_audio_buffer_ptr obj `mod` AUDIO_BUFFER_SIZE + Z.of_nat i))
        with (k + i)%nat in Ha by lia.
      subst k. congruence.
    + rewrite lookup_app_r in Hb' by (rewrite length_drop; lia).
      rewrite length_drop, lookup_take_lt in Hb' by lia.
      replace ((m_audio_buffer_ptr obj `mod` AUDIO_BUFFER_SIZE + Z.of_nat i)
                 `mod` AUDIO_BUFFER_SIZE)
        with (m_audio_buffer_ptr obj `mod` AUDIO_BUFFER_SIZE + Z.of_nat i
              - AUDIO_BUFFER_SIZE) in Ha.
      * replace (Z.to_nat (m_audio_buffer_ptr obj `mod` AUDIO_BUFFER_SIZE
                           + Z.of_nat i - AUDIO_BUFFER_SIZE))
          with (i - (length (m_audio_buffer obj) - k))%nat in Ha by lia.
        subst k. congruence.
      * apply Z.mod_unique_pos with (q := 1); unfold k in *; lia.
Qed.

Lemma window_is_rotation_witness :
  let obj := append_one (append_one fresh half) quarter in
  m_features (rebuild_features obj)
  = drop 2 (m_audio_buffer obj) ++ take 2 (m_audio_buffer obj).
Proof.
  intros obj. apply (window_is_rotation obj).
  unfold obj. apply append_one_well_formed, append_one_well_formed, fresh_well_formed.
Defined.

(** X4 — The rebuild overwrites every entry of the window and nothing else:
    its result does not depend on what the window held before, the buffer,
    the cursor and the latch are as they were, and a second rebuild changes
    nothing. *)
Theorem rebuild_overwrites_window (obj : AppAudio) (f : list float) :
  well_formed obj ->
  Z.of_nat (length f) = AUDIO_BUFFER_SIZE ->
  rebuild_features (set_features obj f) = rebuild_features obj /\
  rebuild_features (rebuild_features obj) = rebuild_features obj /\
  m_audio_buffer (rebuild_features obj) = m_audio_buffer obj /\
  m_audio_buffer_ptr (rebuild_features obj) = m_audio_buffer_ptr obj /\
  m_crying (rebuild_features obj) = m_crying obj.
Proof.
  intros Hwf Hf.
  destruct (rebuild_features_spec obj Hwf) as (Eb & Ep & Ec & _).
  split_and!; try assumption.
  - assert (well_formed (set_features obj f)) as Hwf'.
    { destruct Hwf as (? & ? & ?). unfold well_formed. cbn. auto. }
    rewrite (rebuild_features_set _ Hwf'), (rebuild_features_set _ Hwf).
    rewrite window_set_features by assumption. reflexivity.
  - now apply rebuild_features_in_sync.
Qed.

Lemma rebuild_overwrites_window_witness :
  rebuild_features
    (set_features fresh (replicate (Z.to_nat AUDIO_BUFFER_SIZE) silence))
  = rebuild_features fresh.
Proof.
  assert (Z.of_nat (length (replicate (Z.to_nat AUDIO_BUFFER_SIZE) silence))
          = AUDIO_BUFFER_SIZE) as Hlen by (rewrite length_replicate; reflexivity).
  destruct (rebuild_overwrites_window fresh
              (replicate (Z.to_nat AUDIO_BUFFER_SIZE) silence)
              fresh_well_formed Hlen) as (H & _).
  exact H.
Defined.






(** X7 — Over any sequence of fetch results, starting from an object whose
    window is up to date, the passes of [detectTask] end in the state that
    appending the samples of the valid frames alone, in order, and one
    rebuild give: failed and null fetches in between leave no trace, and the
    final window is the initial one slid by all accepted samples. *)
Theorem detectTask_run_skips_failures (afe_chunksize : Z)
    (fetched : list (option afe_fetch_result_t)) (obj : AppAudio) :
  well_formed obj -> in_sync obj ->
  let samples := concat (map (accepted_samples afe_chunksize) fetched) in
  let obj' := detectTask_run afe_chunksize fetched obj in
  obj' = rebuild_features (append_all obj samples) /\
  m_features obj' = drop (length samples) (m_features obj ++ samples).
Proof.
  intros Hwf Hsync samples obj'.
  assert (obj' = rebuild_features (append_all obj samples)) as H
    by now apply detectTask_run_accepted.
  split; [exact H|]. rewrite H.
  change (window (append_all obj samples)
          = drop (length samples) (m_features obj ++ samples)).
  rewrite window_append_all by assumption.
  unfold window. now rewrite Hsync.
Qed.

Lemma detectTask_run_skips_failures_witness :
  let start := rebuild_features fresh in
  let good := Some (mk_fetch 0 (fun _ => half)) in
  let bad := Some (mk_fetch ESP_FAIL (fun _ => quarter)) in
  detectTask_run 2 [good; None; bad; good] start
  = rebuild_features (append_all start [half; half; half; half]).
Proof.
  intros start good bad.
  destruct (detectTask_run_skips_failures 2 [good; None; bad; good] start
              (rebuild_features_well_formed fresh fresh_well_formed)
              (rebuild_features_in_sync fresh fresh_well_formed)) as (H & _).
  exact H.
Defined.

(** ** More on the label reduction *)

Lemma label_reduction_scan (L : Z) (out : classifier_outcome) :
  status out = EI_IMPULSE_OK ->
  label_reduction L out
  = for_loop (Z.to_nat L) 0 (scan_one (classification out)) NOISE_IDX.
Proof. intros H. unfold label_reduction. rewrite H. reflexivity. Qed.

Lemma label_reduction_failed (L : Z) (out : classifier_outcome) :
  status out <> EI_IMPULSE_OK -> label_reduction L out = NOISE_IDX.
Proof.
  intros H. unfold label_reduction.
  destruct (Z.eqb_spec (status out) EI_IMPULSE_OK); [contradiction|reflexivity].
Qed.

(** X9 — The reduced label is [NOISE_IDX] or the index of a scanned label,
    whatever the status; with at least two labels it is always the index of a
    label of the model. *)
Theorem label_reduction_in_range (EI_CLASSIFIER_LABEL_COUNT : Z)
    (out : classifier_outcome) :
  let r := label_reduction EI_CLASSIFIER_LABEL_COUNT out in
  (r = NOISE_IDX \/ 0 <= r < EI_CLASSIFIER_LABEL_COUNT) /\
  (2 <= EI_CLASSIFIER_LABEL_COUNT -> 0 <= r < EI_CLASSIFIER_LABEL_COUNT).
Proof.
  intros r.
  assert (r = NOISE_IDX \/ 0 <= r < EI_CLASSIFIER_LABEL_COUNT) as H.
  { destruct (Z.eq_dec (status out) EI_IMPULSE_OK) as [Hok|Hfail].
    - unfold r. rewrite (label_reduction_scan _ _ Hok).
      destruct (scan_invariant (classification out)
                  (Z.to_nat EI_CLASSIFIER_LABEL_COUNT)) as (Hb & _).
      destruct Hb as [Hb|Hb]; [now left|right; lia].
    - left. now apply label_reduction_failed. }
  split; [exact H|]. intros HL. unfold NOISE_IDX in H. lia.
Qed.

Lemma label_reduction_in_range_witness :
  0 <= label_reduction 2 (mk_outcome EI_IMPULSE_OK (scores half quarter)) < 2.
Proof.
  destruct (label_reduction_in_range 2
              (mk_outcome EI_IMPULSE_OK (scores half quarter))) as (_ & H).
  apply H. lia.
Defined.

(** Once label 0 is the running best and no score is above its score, it
    stays the running best. *)
Lemma scan_keeps_crying (cls : Z -> float) (n k : nat) :
  SFltb (cls NOISE_IDX) (cls CRYING_IDX) = true ->
  (forall j, 0 <= j < Z.of_nat n -> SFltb (cls CRYING_IDX) (cls j) = false) ->
  (1 <= k <= n)%nat ->
  for_loop k 0 (scan_one cls) NOISE_IDX = CRYING_IDX.
Proof.
  intros Hgt Hmax. induction k as [|k IH]; intros Hk; [lia|].
  rewrite for_loop_snoc. destruct k as [|k].
  - change (scan_one cls CRYING_IDX NOISE_IDX = CRYING_IDX).
    unfold scan_one. rewrite Hgt. reflexivity.
  - rewrite IH by lia. unfold scan_one. rewrite Hmax by lia. reflexivity.
Qed.

(** X10 — With status OK and at least one label, the reduced label is
    [CRYING_IDX] exactly when the score of label 0 is strictly greater than
    the score of [NOISE_IDX] and no label's score is strictly greater than the
    score of label 0. *)
Theorem crying_iff_strictly_above (EI_CLASSIFIER_LABEL_COUNT : Z)
    (out : classifier_outcome) :
  1 <= EI_CLASSIFIER_LABEL_COUNT ->
  status out = EI_IMPULSE_OK ->
  let cls := classification out in
  label_reduction EI_CLASSIFIER_LABEL_COUNT out = CRYING_IDX <->
  SFltb (cls NOISE_IDX) (cls CRYING_IDX) = true /\
  (forall j, 0 <= j < EI_CLASSIFIER_LABEL_COUNT -> SFltb (cls CRYING_IDX) (cls j) = false).
Proof.
  intros HL Hok cls. rewrite (label_reduction_scan _ _ Hok). fold cls.
  destruct (scan_invariant cls (Z.to_nat EI_CLASSIFIER_LABEL_COUNT))
    as (_ & Hmax & _ & Habove).
  split.
  - intros Hr. rewrite Hr in Hmax, Habove. split.
    + apply Habove. discriminate.
    + intros j Hj. apply Hmax. lia.
  - intros (Hgt & Hnone).
    apply (scan_keeps_crying cls (Z.to_nat EI_CLASSIFIER_LABEL_COUNT)); try assumption.
    + intros j Hj. apply Hnone. lia.
    + lia.
Qed.

Lemma crying_iff_strictly_above_witness :
  label_reduction 2 (mk_outcome EI_IMPULSE_OK (scores half quarter)) = CRYING_IDX.
Proof.
  apply (crying_iff_strictly_above 2 (mk_outcome EI_IMPULSE_OK (scores half quarter))).
  - lia.
  - reflexivity.
  - split; [reflexivity|]. intros j Hj.
    assert (j = 0 \/ j = 1) as [-> | ->] by lia; reflexivity.
Defined.

Lemma SFltb_nan_l x : SFltb S754_nan x = false.
Proof. reflexivity. Qed.

Lemma SFltb_nan_r x : SFltb x S754_nan = false.
Proof. destruct x as [[]|[]| |[] ? ?]; reflexivity. Qed.

(** X11 — A NaN score never wins: with status OK, if the score of
    [NOISE_IDX] is a NaN the reduced label is [NOISE_IDX] whatever the other
    scores, and a reduced label other than [NOISE_IDX] has a score that is not
    a NaN and is strictly greater than the score of [NOISE_IDX]. *)
Theorem nan_score_never_wins (EI_CLASSIFIER_LABEL_COUNT : Z)
    (out : classifier_outcome) :
  status out = EI_IMPULSE_OK ->
  let cls := classification out in
  let r := label_reduction EI_CLASSIFIER_LABEL_COUNT out in
  (cls NOISE_IDX = S754_nan -> r = NOISE_IDX) /\
  (r <> NOISE_IDX ->
   cls r <> S754_nan /\ SFltb (cls NOISE_IDX) (cls r) = true).
Proof.
  intros Hok cls r.
  assert (r <> NOISE_IDX -> SFltb (cls NOISE_IDX) (cls r) = true) as Habove.
  { unfold r. rewrite (label_reduction_scan _ _ Hok).
    apply (scan_invariant cls (Z.to_nat EI_CLASSIFIER_LABEL_COUNT)). }
  split.
  - intros Hnan. destruct (Z.eq_dec r NOISE_IDX) as [E|E]; [exact E|].
    specialize (Habove E). rewrite Hnan, SFltb_nan_l in Habove. discriminate.
  - intros E. split; [|exact (Habove E)].
    intros Hnan. specialize (Habove E). rewrite Hnan, SFltb_nan_r in Habove.
    discriminate.
Qed.

Lemma nan_score_never_wins_witness :
  label_reduction 2 (mk_outcome EI_IMPULSE_OK (scores half S754_nan)) = NOISE_IDX.
Proof.
  destruct (nan_score_never_wins 2
              (mk_outcome EI_IMPULSE_OK (scores half S754_nan)) eq_refl) as (H & _).
  apply H. reflexivity.
Defined.

(** X12 — The scan loop with its [uint16_t] counter written out: with a
    label count that fits the counter it has left after
    [EI_CLASSIFIER_LABEL_COUNT + 1] tests of its condition; with a label count
    above [65535] the counter wraps before it reaches the count and the loop
    never leaves, however many tests are allowed. *)
Theorem scan_loop_termination (EI_CLASSIFIER_LABEL_COUNT : Z)
    (cls : Z -> float) (result_idx : Z) :
  (0 <= EI_CLASSIFIER_LABEL_COUNT <= 65535 ->
   scan_labels_uint16 EI_CLASSIFIER_LABEL_COUNT
     (S (Z.to_nat EI_CLASSIFIER_LABEL_COUNT)) cls 0 result_idx
   = Some (scan_labels EI_CLASSIFIER_LABEL_COUNT cls result_idx) /\
   scan_labels_uint16 EI_CLASSIFIER_LABEL_COUNT
     (Z.to_nat EI_CLASSIFIER_LABEL_COUNT) cls 0 result_idx = None) /\
  (65535 < EI_CLASSIFIER_LABEL_COUNT ->
   forall fuel,
     scan_labels_uint16 EI_CLASSIFIER_LABEL_COUNT fuel cls 0 result_idx = None).
Proof.
  split.
  - intros HL. split; [apply scan_labels_uint16_spec; lia|].
    assert (forall fuel i idx, 0 <= i ->
              (Z.of_nat fuel <= EI_CLASSIFIER_LABEL_COUNT - i) ->
              scan_labels_uint16 EI_CLASSIFIER_LABEL_COUNT fuel cls i idx = None) as H.
    { induction fuel as [|fuel IH]; intros i idx Hi Hf; [reflexivity|].
      cbn [scan_labels_uint16].
      destruct (Z.ltb_spec i EI_CLASSIFIER_LABEL_COUNT); [|lia].
      rewrite Z.mod_small by lia. apply IH; lia. }
    apply H; lia.
  - intros HL fuel. apply scan_labels_uint16_diverges; lia.
Qed.

Lemma scan_loop_termination_witness :
  scan_labels_uint16 2 3 (scores half quarter) 0 NOISE_IDX = Some CRYING_IDX /\
  scan_labels_uint16 65536 5 (scores half quarter) 0 NOISE_IDX = None.
Proof.
  destruct (scan_loop_termination 2 (scores half quarter) NOISE_IDX) as (Hfit & _).
  destruct (scan_loop_termination 65536 (scores half quarter) NOISE_IDX) as (_ & Hwrap).
  split.
  - apply Hfit. lia.
  - apply Hwrap. lia.
Defined.

(** ** More on the crying latch *)

(** A step of the switch: the latch after it, and the calls, as a function of
    the label's state and the latch before. *)
Lemma action_switch_step (l : Z) (obj : AppAudio) :
  let c := m_crying obj in
  let c' := default c (label_state l) in
  m_crying (fst (action_switch l obj)) = c' /\
  snd (action_switch l obj) = (if Bool.eqb c c' then [] else [c']).
Proof.
  unfold action_switch, label_state.
  destruct (l =? CRYING_IDX); [|destruct (l =? NOISE_IDX)];
    destruct (m_crying obj) eqn:E; cbn; rewrite ?E; auto.
Qed.

Lemma debounce_run_cons (l : Z) (ls : list Z) (obj : AppAudio) :
  debounce_run (l :: ls) obj
  = (fst (debounce_run ls (fst (action_switch l obj))),
     snd (action_switch l obj) ++ snd (debounce_run ls (fst (action_switch l obj)))).
Proof.
  cbn [debounce_run]. destruct (action_switch l obj) as [o1 e1].
  cbn [fst snd]. destruct (debounce_run ls o1). reflexivity.
Qed.

(** Calls that alternate from [b] on have [b] at the even places and its
    opposite at the odd ones. *)
Lemma alternating_lookup (b : bool) (evs : events) (i : nat) (e : bool) :
  alternating b evs = true -> evs !! i = Some e ->
  e = if Nat.even i then b else negb b.
Proof.
  revert b i. induction evs as [|e0 es IH]; intros b i Halt Hi; [discriminate|].
  cbn in Halt. apply andb_prop in Halt as (He & Hrest).
  apply Bool.eqb_prop in He. subst e0.
  destruct i as [|i]; cbn in Hi.
  - now injection Hi as <-.
  - rewrite (IH _ _ Hrest Hi). rewrite Nat.even_succ, <- Nat.negb_even.
    destruct (Nat.even i), b; reflexivity.
Qed.

Lemma debounce_run_alternating (labels : list Z) (obj : AppAudio) :
  alternating (negb (m_crying obj)) (snd (debounce_run labels obj)) = true.
Proof.
  revert obj. induction labels as [|l ls IH]; intros obj; [reflexivity|].
  rewrite debounce_run_cons. cbn [snd].
  destruct (action_switch_step l obj) as (Hc & He).
  specialize (IH (fst (action_switch l obj))). rewrite Hc in IH. rewrite He.
  destruct (m_crying obj), (default _ (label_state l)); cbn in *; exact IH.
Qed.

(** X13 — The callback calls of a run alternate: whatever the labels, the
    first call has the argument opposite to the latch at the start, and every
    call has the argument opposite to the one before. *)
Theorem events_alternate (labels : list Z) (obj : AppAudio) :
  let calls := snd (debounce_run labels obj) in
  alternating (negb (m_crying obj)) calls = true /\
  (forall e, head calls = Some e -> e = negb (m_crying obj)) /\
  (forall i e e', calls !! i = Some e -> calls !! S i = Some e' -> e' = negb e).
Proof.
  intros calls.
  pose proof (debounce_run_alternating labels obj) as Halt. fold calls in Halt.
  split_and!; [exact Halt| |].
  - intros e He. destruct calls as [|e0 es]; [discriminate|].
    cbn in He. injection He as <-. cbn in Halt.
    apply andb_prop in Halt as (He & _). now apply Bool.eqb_prop in He.
  - intros i e e' Hi HSi.
    rewrite (alternating_lookup _ _ _ _ Halt Hi), (alternating_lookup _ _ _ _ Halt HSi).
    rewrite Nat.even_succ, <- Nat.negb_even.
    destruct (Nat.even i), (m_crying obj); reflexivity.
Qed.

Lemma events_alternate_witness :
  snd (debounce_run [0; 0; 1; 2; 0] fresh) = [true; false; true] /\
  (forall e, head (snd (debounce_run [0; 0; 1; 2; 0] fresh)) = Some e -> e = true).
Proof.
  split; [reflexivity|].
  destruct (events_alternate [0; 0; 1; 2; 0] fresh) as (_ & Hfirst & _).
  exact Hfirst.
Defined.

(** X14 — After a run the latch holds the argument of the last callback call
    made, or its initial value when no call was made: what the callback was
    last told is the state of the latch. *)
Theorem latch_is_last_event (labels : list Z) (obj : AppAudio) :
  m_crying (fst (debounce_run labels obj))
  = default (m_crying obj) (last (snd (debounce_run labels obj))).
Proof.
  revert obj. induction labels as [|l ls IH]; intros obj; [reflexivity|].
  rewrite debounce_run_cons. cbn [fst snd].
  destruct (action_switch_step l obj) as (Hc & He).
  rewrite IH, Hc, He.
  destruct (last (snd (debounce_run ls (fst (action_switch l obj)))))
    as [e|] eqn:El.
  - rewrite last_app, El. reflexivity.
  - apply last_None in El. rewrite El, app_nil_r.
    destruct (m_crying obj), (default _ (label_state l)); reflexivity.
Qed.

(** X15 — After a run the latch is decided by the last label of the run that
    is [CRYING_IDX] or [NOISE_IDX] (crying for the first, not crying for the
    second), and is unchanged when there is none; the buffer, the cursor and
    the window are never touched. *)
Theorem latch_follows_last_label (labels : list Z) (obj : AppAudio) :
  let obj' := fst (debounce_run labels obj) in
  m_crying obj'
  = foldl (fun c l => default c (label_state l)) (m_crying obj) labels /\
  m_audio_buffer obj' = m_audio_buffer obj /\
  m_audio_buffer_ptr obj' = m_audio_buffer_ptr obj /\
  m_features obj' = m_features obj.
Proof.
  revert obj. induction labels as [|l ls IH]; intros obj; [cbn; auto|].
  cbn zeta. rewrite debounce_run_cons. cbn [fst foldl].
  destruct (action_switch_step l obj) as (Hc & _).
  destruct (action_switch_as_set l (m_crying obj)) as (c & evs & Hsw).
  destruct (IH (fst (action_switch l obj))) as (H1 & H2 & H3 & H4).
  rewrite H1, H2, H3, H4, Hc. rewrite (Hsw obj eq_refl). auto.
Qed.

(** X16 — Repeating a label is silent: once a pass has handled a label, any
    number of further passes with the same label make no call and leave the
    object as it is. *)
Theorem repeated_label_is_silent (l : Z) (n : nat) (obj : AppAudio) :
  let obj1 := fst (action_switch l obj) in
  debounce_run (replicate n l) obj1 = (obj1, []).
Proof.
  intros obj1.
  assert (action_switch l obj1 = (obj1, [])) as Hfix.
  { unfold obj1, action_switch.
    destruct (l =? CRYING_IDX); [|destruct (l =? NOISE_IDX)];
      destruct (m_crying obj) eqn:E; cbn; rewrite ?E; reflexivity. }
  induction n as [|n IH]; [reflexivity|].
  cbn [replicate]. rewrite debounce_run_cons, Hfix. cbn [fst snd].
  rewrite IH. reflexivity.
Qed.

(** Runs compose: the run over two sequences of labels one after the other
    is the run over the first, then the run over the second from the object
    the first left, with the calls of the first before the calls of the
    second. *)
Lemma debounce_run_app (labels1 labels2 : list Z) (obj : AppAudio) :
  debounce_run (labels1 ++ labels2) obj
  = (fst (debounce_run labels2 (fst (debounce_run labels1 obj))),
     snd (debounce_run labels1 obj)
     ++ snd (debounce_run labels2 (fst (debounce_run labels1 obj)))).
Proof.
  revert obj. induction labels1 as [|l ls IH]; intros obj.
  - cbn. now destruct (debounce_run labels2 obj).
  - rewrite <- app_comm_cons, !debounce_run_cons, IH. cbn [fst snd].
    now rewrite app_assoc.
Qed.

(** ** What is published *)

(** X17 — What a subscriber sees: over any sequence of labels from the state
    [init] leaves, every message published through the callback of [app_main]
    goes to the topic [bedroom/sensor/baby_monitor] with QoS 1 and no retain
    flag, and the payloads alternate, ["1"] first: ["1"] at the even places
    and ["0"] at the odd ones. *)
Theorem published_messages (labels : list Z) (raw_audio raw_features : list float)
    (i : nat) (m : mqtt_publish_call) :
  let calls := snd (debounce_run labels (fst (init raw_audio raw_features))) in
  map crying_callback calls !! i = Some m ->
  topic m = "bedroom/sensor/baby_monitor"%string /\
  qos m = 1 /\ retain m = 0 /\ len m = 0 /\
  payload m = (if Nat.even i then "1" else "0")%string.
Proof.
  intros calls Hm.
  rewrite list_lookup_fmap in Hm.
  apply fmap_Some in Hm as (e & He & ->).
  pose proof (debounce_run_alternating labels (fst (init raw_audio raw_features))) as Halt.
  fold calls in Halt.
  change (negb (m_crying (fst (init raw_audio raw_features)))) with true in Halt.
  rewrite (alternating_lookup _ _ _ _ Halt He).
  destruct (Nat.even i); cbn; auto.
Qed.

Lemma published_messages_witness :
  map crying_callback (snd (debounce_run [0; 1; 0] (fst (init [] [])))) !! 1%nat
  = Some (crying_callback false) /\
  payload (crying_callback false) = "0"%string.
Proof.
  split; [reflexivity|].
  apply (published_messages [0; 1; 0] [] [] 1 (crying_callback false)).
  reflexivity.
Defined.

(** ** More on the data callback *)

(** A request inside the window: the entries asked for, and [0]. *)
Lemma get_data_fn_in_range (size_bits : Z) (obj : AppAudio) (offset n : Z) :
  16 <= size_bits ->
  Z.of_nat (length (m_features obj)) = AUDIO_BUFFER_SIZE ->
  0 <= offset -> 0 <= n -> offset + n <= AUDIO_BUFFER_SIZE ->
  get_data_fn size_bits obj offset n
  = (Copied (take (Z.to_nat n) (drop (Z.to_nat offset) (m_features obj))), 0).
Proof.
  intros Hbits Hlen Hoff Hn Hin.
  assert (2 ^ 16 <= 2 ^ size_bits) as Hpow by (apply Z.pow_le_mono_r; lia).
  change (2 ^ 16) with 65536 in Hpow.
  unfold get_data_fn, memcpy_floats, sizeof_float, AUDIO_BUFFER_SIZE in *.
  rewrite Hlen, size_t_mul_small by lia.
  rewrite Z.div_mul by discriminate.
  destruct (Z.leb_spec (offset * 4 + n * 4) (16000 * 4)); [|lia].
  destruct (Z.eqb_spec (n * 4) 0) as [E|E]; [|reflexivity].
  replace n with 0 by lia. reflexivity.
Qed.

(** X18 — A request for the whole signal, offset [0] and length
    [AUDIO_BUFFER_SIZE] (the length [actionTask] puts in the [signal_t]),
    returns the feature window as it is, entry for entry, and status [0]. *)
Theorem get_data_fn_whole_window (size_bits : Z) (obj : AppAudio) :
  16 <= size_bits ->
  Z.of_nat (length (m_features obj)) = AUDIO_BUFFER_SIZE ->
  get_data_fn size_bits obj 0 AUDIO_BUFFER_SIZE = (Copied (m_features obj), 0).
Proof.
  intros Hbits Hlen.
  rewrite get_data_fn_in_range by (try assumption; unfold AUDIO_BUFFER_SIZE in *; lia).
  change (Z.to_nat 0) with 0%nat. rewrite drop_0, take_ge by lia. reflexivity.
Qed.

Lemma get_data_fn_whole_window_witness :
  get_data_fn 32 (set_features fresh (ramp (Z.to_nat AUDIO_BUFFER_SIZE)))
    0 AUDIO_BUFFER_SIZE
  = (Copied (ramp (Z.to_nat AUDIO_BUFFER_SIZE)), 0).
Proof.
  apply (get_data_fn_whole_window 32
           (set_features fresh (ramp (Z.to_nat AUDIO_BUFFER_SIZE)))).
  - lia.
  - cbn [set_features m_features]. unfold ramp.
    rewrite length_map, length_seq. reflexivity.
Defined.

(** X19 — Reading in pieces gives what reading at once gives: for two
    requests that follow each other inside the window, the entries copied by
    the first followed by the entries copied by the second are the entries
    copied by the one request that spans both. *)
Theorem get_data_fn_chunks (size_bits : Z) (obj : AppAudio) (offset a b : Z) :
  16 <= size_bits ->
  Z.of_nat (length (m_features obj)) = AUDIO_BUFFER_SIZE ->
  0 <= offset -> 0 <= a -> 0 <= b ->
  offset + a + b <= AUDIO_BUFFER_SIZE ->
  exists out1 out2,
    get_data_fn size_bits obj offset a = (Copied out1, 0) /\
    get_data_fn size_bits obj (offset + a) b = (Copied out2, 0) /\
    get_data_fn size_bits obj offset (a + b) = (Copied (out1 ++ out2), 0).
Proof.
  intros Hbits Hlen Hoff Ha Hb Hin.
  eexists _, _. split_and!.
  - apply get_data_fn_in_range; lia.
  - apply get_data_fn_in_range; lia.
  - rewrite get_data_fn_in_range by lia. do 2 f_equal.
    rewrite Z2Nat.inj_add, <- take_take_drop by lia.
    rewrite drop_drop, <- Z2Nat.inj_add by lia. reflexivity.
Qed.

Lemma get_data_fn_chunks_witness :
  exists out1 out2,
    get_data_fn 32 fresh 0 100 = (Copied out1, 0) /\
    get_data_fn 32 fresh 100 200 = (Copied out2, 0) /\
    get_data_fn 32 fresh 0 300 = (Copied (out1 ++ out2), 0).
Proof.
  apply (get_data_fn_chunks 32 fresh 0 100 200); try lia.
  - unfold fresh. cbn [init fst m_features]. rewrite length_replicate. reflexivity.
  - unfold AUDIO_BUFFER_SIZE. lia.
Defined.

(** X20 — From the microphone side to the classifier side: after at least
    [AUDIO_BUFFER_SIZE] samples have been appended and the window rebuilt, a
    request for the whole signal returns exactly the last [AUDIO_BUFFER_SIZE]
    samples, oldest first. *)
Theorem classifier_reads_last_samples (size_bits : Z) (obj : AppAudio)
    (xs : list float) :
  16 <= size_bits ->
  well_formed obj ->
  AUDIO_BUFFER_SIZE <= Z.of_nat (length xs) ->
  get_data_fn size_bits (rebuild_features (append_all obj xs)) 0 AUDIO_BUFFER_SIZE
  = (Copied (drop (length xs - Z.to_nat AUDIO_BUFFER_SIZE) xs), 0).
Proof.
  intros Hbits Hwf HN.
  assert (well_formed (append_all obj xs)) as Hmid
    by (apply append_all_well_formed; exact Hwf).
  pose proof (window_length _ Hmid) as Hlen.
  pose proof (window_length _ Hwf) as Hlen0.
  assert (0 <= AUDIO_BUFFER_SIZE) as Hpos by discriminate.
  rewrite (get_data_fn_in_range size_bits _ 0 AUDIO_BUFFER_SIZE Hbits Hlen
             (Z.le_refl 0) Hpos (Z.le_refl _)).
  change (Z.to_nat 0) with 0%nat. rewrite drop_0.
  change (m_features (rebuild_features (append_all obj xs)))
    with (window (append_all obj xs)).
  rewrite take_ge by lia.
  rewrite (window_append_all obj xs Hwf).
  rewrite drop_app_ge by lia.
  replace (length (window obj)) with (Z.to_nat AUDIO_BUFFER_SIZE) by lia.
  reflexivity.
Qed.

Lemma classifier_reads_last_samples_witness :
  let xs := ramp (Z.to_nat 16005) in
  get_data_fn 32 (rebuild_features (append_all fresh xs)) 0 AUDIO_BUFFER_SIZE
  = (Copied (drop (length xs - Z.to_nat AUDIO_BUFFER_SIZE) xs), 0).
Proof.
  intros xs.
  apply (classifier_reads_last_samples 32 fresh xs).
  - lia.
  - exact fresh_well_formed.
  - unfold xs, ramp. rewrite length_map, length_seq. vm_compute. discriminate.
Defined.

(** ** feedTask *)

(** X21 — Each read of [feedTask] asks for exactly the size of the buffer it
    allocated: when the chunk size and the channel count are non-negative
    [int]s whose product is an [int], the byte count handed to
    [esp_get_feed_data] is [sizeof(int16_t)] times the element count of
    [i2s_buff]; the [size_t] product does not wrap. *)
Theorem feed_read_fills_buffer (size_bits audio_chunksize feed_channel : Z) :
  32 <= size_bits ->
  0 <= audio_chunksize <= 2147483647 ->
  0 <= feed_channel <= 2147483647 ->
  audio_chunksize * feed_channel <= 2147483647 ->
  feed_read_bytes size_bits audio_chunksize feed_channel
  = sizeof_int16 * feed_buffer_elements audio_chunksize feed_channel.
Proof.
  intros Hbits Hc Hf Hprod.
  assert (2 ^ 32 <= 2 ^ size_bits) as Hpow by (apply Z.pow_le_mono_r; lia).
  change (2 ^ 32) with 4294967296 in Hpow.
  unfold feed_read_bytes, feed_buffer_elements, sizeof_int16.
  rewrite !(Z.mod_small _ (2 ^ size_bits)) by lia.
  rewrite (size_t_mul_small size_bits audio_chunksize 2) by lia.
  rewrite size_t_mul_small by nia. lia.
Qed.

Lemma feed_read_fills_buffer_witness :
  feed_read_bytes 32 512 3 = sizeof_int16 * feed_buffer_elements 512 3.
Proof. apply (feed_read_fills_buffer 32 512 3); lia. Defined.
